(** * Overlay symbol pruning for the augmented Go standard library

    A shallow embedding of package [goroot]: the symbol filter that collects
    the top-level symbols of an overlay file and prunes them from the
    upstream file ([SymbolFilter], and its successor [augmenter]), the
    [nosync] import redirector, transformer chaining and the source
    pipeline ([processSource], [writeAST], [copyUnmodified]).

    Go values are modelled as follows.
    - [token.Pos] is an integer ([Z]); [token.NoPos] is 0.
    - [go/ast] nodes are records and inductive types holding the fields the
      package reads or writes; everything else of a node is kept as opaque
      data so that "unchanged" is still meaningful.
    - [*ast.ImportSpec] objects are shared between [File.Decls] and
      [File.Imports]; they live in a store addressed by location, and both
      places hold locations.
    - A Go function that may panic returns [result]; [error] results are
      values of [option error].
    - The disk is passed through the pipeline as a value: a map from paths
      to regular files and symbolic links.  [os.Stat], [os.Create] and
      reading follow links, [os.Symlink] does not. *)

From Stdlib Require Import ZArith Ascii DecimalString.
From stdpp Require Import base tactics option list gmap strings.

Local Open Scope Z_scope.

(** ** Panics and results *)

Inductive panic : Type :=
  | UnsupportedNode      (* key: "AST node ... is not supported" *)
  | TypeAssertion        (* unchecked type assertion to an identifier *)
  | NilDereference       (* field access through a nil pointer *)
  | FormatFailed.        (* placeholder: "failed to format AST node" *)

Inductive result (A : Type) : Type :=
  | Ok (a : A)
  | Panic (p : panic).
Arguments Ok {A} a.
Arguments Panic {A} p.

#[global] Instance result_ret : MRet result := fun A a => Ok a.
#[global] Instance result_bind : MBind result := fun A B f m =>
  match m with
  | Ok a => f a
  | Panic p => Panic p
  end.

Definition panics {A} (r : result A) : bool :=
  match r with Ok _ => false | Panic _ => true end.

(** ** Tokens and positions (go/token) *)

Inductive Token : Type := IMPORT | CONST | TYPE | VAR | FUNC.

#[global] Instance Token_eq_dec : EqDecision Token.
Proof. solve_decision. Defined.

(** [Token.String] *)
Definition Token_String (t : Token) : string :=
  match t with
  | IMPORT => "import"
  | CONST => "const"
  | TYPE => "type"
  | VAR => "var"
  | FUNC => "func"
  end.

Definition Pos : Type := Z.
Definition NoPos : Pos := 0.

Record Position : Type := mkPosition {
  Filename : string;
  Offset : Z;
  Line : Z;
  Column : Z
}.

(** The zero value [token.Position{}]. *)
Definition Position_zero : Position := mkPosition "" 0 0 0.

(** [strconv.Itoa] *)
Definition Itoa (n : Z) : string := NilZero.string_of_int (Z.to_int n).

(** [Position.IsValid] *)
Definition Position_IsValid (p : Position) : bool := 0 <? Line p.

(** [Position.String]: "file:line:column", "line:column", "file:line",
    "line", "file" or "-". *)
Definition Position_String (p : Position) : string :=
  let s := Filename p in
  let s :=
    if Position_IsValid p then
      let s := if bool_decide (s = "") then s else s +:+ ":" in
      let s := s +:+ Itoa (Line p) in
      if bool_decide (Column p = 0) then s else s +:+ ":" +:+ Itoa (Column p)
    else s in
  if bool_decide (s = "") then "-" else s.

(** A [*token.FileSet] is used only through [Position]; it is modelled by
    that function. *)
Definition token_FileSet : Type := Pos -> Position.

(** ** Syntax trees (go/ast) *)

Record Ident : Type := mkIdent {
  NamePos : Pos;
  Name : string
}.

(** [ast.NewIdent] *)
Definition NewIdent (name : string) : Ident := mkIdent NoPos name.

(** Type expressions.  Receivers need [Ident] and [StarExpr]; the other
    constructors are the remaining shapes a receiver type can take
    ([T[P]], [(T)], [pkg.T]) and a catch-all carrying source text. *)
Inductive Expr : Type :=
  | EIdent (id : Ident)
  | StarExpr (star : Pos) (X : Expr)
  | IndexExpr (X : Expr) (index : Expr)
  | ParenExpr (lparen : Pos) (X : Expr)
  | SelectorExpr (X : Expr) (sel : Ident)
  | OtherExpr (src : string).

Record Field : Type := mkField {
  Field_Names : list Ident;
  Field_Type : Expr
}.

(** [*ast.FieldList]; a nil pointer is [None] where the field is optional. *)
Record FieldList : Type := mkFieldList {
  Opening : Pos;
  FList : list Field
}.

Record FuncType : Type := mkFuncType {
  Func : Pos;               (* position of the "func" keyword *)
  Params : FieldList;
  Results : option FieldList
}.

Record Comment : Type := mkComment {
  Slash : Pos;
  Text : string
}.

Record CommentGroup : Type := mkCommentGroup {
  CList : list Comment
}.

Record FuncDecl : Type := mkFuncDecl {
  FuncDecl_Doc : option CommentGroup;
  Recv : option FieldList;
  FuncDecl_Name : Ident;
  FuncDecl_Type : FuncType;
  Body : option string      (* the block statement, opaque *)
}.

Record ValueSpec : Type := mkValueSpec {
  Names : list Ident;
  ValueSpec_Type : option Expr;
  Values : list string      (* initializer expressions, opaque *)
}.

Record TypeSpec : Type := mkTypeSpec {
  TypeSpec_Name : Ident;
  Assign : Pos;             (* position of "=", if any *)
  TypeSpec_Type : Expr
}.

Record BasicLit : Type := mkBasicLit {
  ValuePos : Pos;
  Value : string
}.

Record ImportSpec : Type := mkImportSpec {
  ImportSpec_Name : option Ident;   (* local package name, or nil *)
  Path : BasicLit
}.

(** Locations of [*ast.ImportSpec] objects. *)
Definition loc : Type := nat.

Inductive Spec : Type :=
  | SImport (l : loc)
  | SValue (v : ValueSpec)
  | SType (t : TypeSpec).

Record GenDecl : Type := mkGenDecl {
  GenDecl_Doc : option CommentGroup;
  TokPos : Pos;
  Tok : Token;
  Lparen : Pos;
  Specs : list Spec
}.

Inductive Decl : Type :=
  | DBad (from to : Pos)
  | DGen (d : GenDecl)
  | DFunc (d : FuncDecl).

Record File : Type := mkFile {
  File_Doc : option CommentGroup;
  File_Name : Ident;                    (* package name *)
  Decls : list Decl;
  Imports : list loc;                   (* imports in this file *)
  Comments : list CommentGroup;
  ImportObjs : gmap loc ImportSpec      (* the import specs pointed to *)
}.

(** The nodes that [key] and [placeholder] are applied to. *)
Inductive Node : Type :=
  | NIdent (n : Ident)
  | NTypeSpec (n : TypeSpec)
  | NValueSpec (n : ValueSpec)
  | NGenDecl (n : GenDecl)
  | NFuncDecl (n : FuncDecl)
  | NFile (n : File).

#[global] Instance Ident_eq_dec : EqDecision Ident.
Proof. solve_decision. Defined.
#[global] Instance Expr_eq_dec : EqDecision Expr.
Proof. solve_decision. Defined.
#[global] Instance BasicLit_eq_dec : EqDecision BasicLit.
Proof. solve_decision. Defined.
#[global] Instance ImportSpec_eq_dec : EqDecision ImportSpec.
Proof. solve_decision. Defined.

(** [Pos] methods used by the package. *)
Definition FuncDecl_Pos (d : FuncDecl) : Pos := Func (FuncDecl_Type d).
Definition TypeSpec_Pos (s : TypeSpec) : Pos := NamePos (TypeSpec_Name s).
Definition GenDecl_Pos (d : GenDecl) : Pos := TokPos d.

(** ** Symbol keys *)

(** [funcName]: the function name, or "Recv.Name" for a method, the
    receiver's pointer being unwrapped once.  The final type assertion
    of the receiver type to an identifier is unchecked. *)
Definition funcName (d : FuncDecl) : result string :=
  match Recv d with
  | None => Ok (Name (FuncDecl_Name d))
  | Some fl =>
    match FList fl with
    | [] => Ok (Name (FuncDecl_Name d))
    | fld :: _ =>
      let recv := Field_Type fld in
      let recv := match recv with StarExpr _ x => x | _ => recv end in
      match recv with
      | EIdent id => Ok (Name id +:+ "." +:+ Name (FuncDecl_Name d))
      | _ => Panic TypeAssertion
      end
    end
  end.

(** [key]: the file's package name, a dot, and the symbol name. *)
Definition key (f : File) (n : Node) : result string :=
  match n with
  | NTypeSpec n => Ok (Name (File_Name f) +:+ "." +:+ Name (TypeSpec_Name n))
  | NFuncDecl n => s ← funcName n; Ok (Name (File_Name f) +:+ "." +:+ s)
  | NIdent n => Ok (Name (File_Name f) +:+ "." +:+ Name n)
  | _ => Panic UnsupportedNode
  end.

(** ** The traversal shared by both implementations

    [SymbolFilter] and [augmenter] walk the file with [astutil.Apply] and
    the same two callbacks; they differ only in how a placeholder comment
    is rendered.  [astutil.Apply] calls the first callback on a node, walks
    the children only when it returned true, and then calls the second
    callback; a node for which the first callback returned false gets no
    second callback.  With these callbacks the walk reaches the file, its
    declarations and the specs of the non-import groups, and nothing else. *)

(** What the callbacks mutate: [f.Comments] and the captured [pruned]. *)
Record walk : Type := mkWalk {
  w_Comments : list CommentGroup;
  w_pruned : bool
}.

Definition emit (c : CommentGroup) (w : walk) : walk :=
  mkWalk (w_Comments w ++ [c]) true.

Definition withNames (v : ValueSpec) (names : list Ident) : ValueSpec :=
  mkValueSpec names (ValueSpec_Type v) (Values v).

Definition withSpecs (d : GenDecl) (specs : list Spec) : GenDecl :=
  mkGenDecl (GenDecl_Doc d) (TokPos d) (Tok d) (Lparen d) specs.

Definition withDecls (f : File) (decls : list Decl) (cs : list CommentGroup) : File :=
  mkFile (File_Doc f) (File_Name f) decls (Imports f) cs (ImportObjs f).

(** [pruneEmptyDecls], on a declaration group: true when it deletes it. *)
Definition pruneEmptyDecls (d : GenDecl) : bool :=
  bool_decide (length (Specs d) = 0%nat).

Section Traversal.
(** Rendering of the placeholder for a function, for one name of a value
    spec and for a type spec; arguments: the enclosing group where there
    is one, the pruned node, the comment position, the replacement
    position. *)
Variable placeholderFunc : FuncDecl -> Pos -> Pos -> result CommentGroup.
Variable placeholderValue : GenDecl -> Ident -> Pos -> Pos -> result CommentGroup.
Variable placeholderType : GenDecl -> TypeSpec -> Pos -> Pos -> result CommentGroup.

(** The symbol table: [WillPrune], resp. [Replacements]. *)
Variable table : gmap string Pos.
Variable f : File.

(** The loop over [node.Names] of the [ValueSpec] case. *)
Fixpoint pruneNames (parent : GenDecl) (names : list Ident) (remaining : Z)
    (w : walk) : result (list Ident * Z * walk) :=
  match names with
  | [] => Ok ([], remaining, w)
  | name :: rest =>
    k ← key f (NIdent name);
    match table !! k with
    | Some pos =>
      c ← placeholderValue parent name (GenDecl_Pos parent - 1) pos;
      '(rest', r, w') ← pruneNames parent rest (remaining - 1) (emit c w);
      Ok (NewIdent "_" :: rest', r, w')
    | None =>
      '(rest', r, w') ← pruneNames parent rest remaining w;
      Ok (name :: rest', r, w')
    end
  end.

(** [visitNode] on a spec of a non-import group; [None] is [c.Delete()]. *)
Definition visitSpec (parent : GenDecl) (s : Spec) (w : walk)
    : result (option Spec * walk) :=
  match s with
  | SValue node =>
    '(names, remaining, w') ←
      pruneNames parent (Names node) (Z.of_nat (length (Names node))) w;
    if bool_decide (remaining = 0)
    then Ok (None, w')
    else Ok (Some (SValue (withNames node names)), w')
  | SType node =>
    k ← key f (NTypeSpec node);
    match table !! k with
    | Some pos =>
      c ← placeholderType parent node (GenDecl_Pos parent - 1) pos;
      Ok (None, emit c w)
    | None => Ok (Some s, w)
    end
  | SImport _ => Ok (Some s, w)
  end.

Fixpoint visitSpecs (parent : GenDecl) (specs : list Spec) (w : walk)
    : result (list Spec * walk) :=
  match specs with
  | [] => Ok ([], w)
  | s :: rest =>
    '(s', w1) ← visitSpec parent s w;
    '(rest', w2) ← visitSpecs parent rest w1;
    Ok (from_option (λ x, x :: rest') rest' s', w2)
  end.

(** [visitNode] on a declaration, the walk of its specs when it returned
    true, and then [pruneEmptyDecls]. *)
Definition visitDecl (d : Decl) (w : walk) : result (option Decl * walk) :=
  match d with
  | DGen node =>
    if bool_decide (Tok node ≠ IMPORT) then
      '(specs, w') ← visitSpecs node (Specs node) w;
      let node' := withSpecs node specs in
      if pruneEmptyDecls node' then Ok (None, w') else Ok (Some (DGen node'), w')
    else Ok (Some d, w)
  | DFunc node =>
    k ← key f (NFuncDecl node);
    match table !! k with
    | Some pos =>
      c ← placeholderFunc node (FuncDecl_Pos node) pos;
      Ok (None, emit c w)
    | None => Ok (Some d, w)
    end
  | DBad _ _ => Ok (Some d, w)
  end.

Fixpoint visitDecls (decls : list Decl) (w : walk) : result (list Decl * walk) :=
  match decls with
  | [] => Ok ([], w)
  | d :: rest =>
    '(d', w1) ← visitDecl d w;
    '(rest', w2) ← visitDecls rest w1;
    Ok (from_option (λ x, x :: rest') rest' d', w2)
  end.

(** [IsEmpty] *)
Definition tableIsEmpty : bool := bool_decide (size table = 0%nat).

(** [Prune] *)
Definition pruneFile : result (File * bool) :=
  if tableIsEmpty then Ok (f, false)
  else
    '(decls, w) ← visitDecls (Decls f) (mkWalk (Comments f) false);
    Ok (withDecls f decls (w_Comments w), w_pruned w).

(** [collectName] on a spec and on a declaration, and [Collect]. *)
Definition collectSpec (s : Spec) (t : gmap string Pos) : result (gmap string Pos) :=
  match s with
  | SValue node =>
    foldl (λ acc name,
             t ← acc; k ← key f (NIdent name); Ok (<[k := NamePos name]> t))
          (Ok t) (Names node)
  | SType node => k ← key f (NTypeSpec node); Ok (<[k := TypeSpec_Pos node]> t)
  | SImport _ => Ok t
  end.

Definition collectDecl (d : Decl) (t : gmap string Pos) : result (gmap string Pos) :=
  match d with
  | DGen node =>
    if bool_decide (Tok node ≠ IMPORT)
    then foldl (λ acc s, t ← acc; collectSpec s t) (Ok t) (Specs node)
    else Ok t
  | DFunc node => k ← key f (NFuncDecl node); Ok (<[k := FuncDecl_Pos node]> t)
  | DBad _ _ => Ok t
  end.

Definition collectFile : result (gmap string Pos * bool) :=
  t ← foldl (λ acc d, t ← acc; collectDecl d t) (Ok table) (Decls f);
  Ok (t, false).
End Traversal.

(** ** What pruning is expected to do, symbol by symbol

    The top-level symbols of a file in the order the walk meets them, and
    the outcome of pruning written as plain functions on declarations; the
    theorems below relate the walk to them. *)

Inductive symbol : Type :=
  | SymFunc (node : FuncDecl)
  | SymValue (parent : GenDecl) (name : Ident)
  | SymType (parent : GenDecl) (node : TypeSpec).

Definition symbolNode (s : symbol) : Node :=
  match s with
  | SymFunc node => NFuncDecl node
  | SymValue _ name => NIdent name
  | SymType _ node => NTypeSpec node
  end.

Definition specSymbols (parent : GenDecl) (s : Spec) : list symbol :=
  match s with
  | SValue v => map (SymValue parent) (Names v)
  | SType t => [SymType parent t]
  | SImport _ => []
  end.

Definition declSymbols (d : Decl) : list symbol :=
  match d with
  | DGen g =>
    if bool_decide (Tok g ≠ IMPORT) then flat_map (specSymbols g) (Specs g) else []
  | DFunc node => [SymFunc node]
  | DBad _ _ => []
  end.

Definition symbols (f : File) : list symbol := flat_map declSymbols (Decls f).

(** The table entry a symbol matches, if its key can be computed. *)
Definition lookupSymbol (table : gmap string Pos) (f : File) (s : symbol) : option Pos :=
  match key f (symbolNode s) with
  | Ok k => table !! k
  | Panic _ => None
  end.

Definition matched (table : gmap string Pos) (f : File) (s : symbol) : bool :=
  bool_decide (is_Some (lookupSymbol table f s)).

Definition nameMatched (table : gmap string Pos) (f : File) (name : Ident) : bool :=
  bool_decide (is_Some (table !! (Name (File_Name f) +:+ "." +:+ Name name))).

Definition typeMatched (table : gmap string Pos) (f : File) (t : TypeSpec) : bool :=
  bool_decide (is_Some (table !! (Name (File_Name f) +:+ "." +:+ Name (TypeSpec_Name t)))).

(** Every method receiver of the file is an identifier or a pointer to one,
    so that every key can be computed. *)
Definition receiversSupported (f : File) : bool :=
  forallb (λ s, negb (panics (key f (symbolNode s)))) (symbols f).

Definition blankName (table : gmap string Pos) (f : File) (name : Ident) : Ident :=
  if nameMatched table f name then NewIdent "_" else name.

Definition specAfter (table : gmap string Pos) (f : File) (s : Spec) : option Spec :=
  match s with
  | SValue v =>
    if forallb (nameMatched table f) (Names v) then None
    else Some (SValue (withNames v (map (blankName table f) (Names v))))
  | SType t =>
    if typeMatched table f t then None else Some s
  | SImport _ => Some s
  end.

Definition declAfter (table : gmap string Pos) (f : File) (d : Decl) : option Decl :=
  match d with
  | DGen g =>
    if bool_decide (Tok g ≠ IMPORT) then
      match omap (specAfter table f) (Specs g) with
      | [] => None
      | specs => Some (DGen (withSpecs g specs))
      end
    else Some d
  | DFunc node => if matched table f (SymFunc node) then None else Some d
  | DBad _ _ => Some d
  end.

Section Rendering.
Variable placeholderFunc : FuncDecl -> Pos -> Pos -> result CommentGroup.
Variable placeholderValue : GenDecl -> Ident -> Pos -> Pos -> result CommentGroup.
Variable placeholderType : GenDecl -> TypeSpec -> Pos -> Pos -> result CommentGroup.

(** The placeholder call [Prune] makes for a symbol. *)
Definition render (s : symbol) (pos : Pos) : result CommentGroup :=
  match s with
  | SymFunc node => placeholderFunc node (FuncDecl_Pos node) pos
  | SymValue parent name => placeholderValue parent name (GenDecl_Pos parent - 1) pos
  | SymType parent node => placeholderType parent node (GenDecl_Pos parent - 1) pos
  end.

Definition placeholderOf (table : gmap string Pos) (f : File)
    (s : symbol) (c : CommentGroup) : Prop :=
  ∃ pos, lookupSymbol table f s = Some pos ∧ render s pos = Ok c.

(** [emitted table f syms w w']: between [w] and [w'] the walk appended
    one placeholder for each matched symbol of [syms], in order, and
    raised the flag if there was one. *)
Definition emitted (table : gmap string Pos) (f : File)
    (syms : list symbol) (w w' : walk) : Prop :=
  ∃ cs, w_Comments w' = w_Comments w ++ cs
        ∧ w_pruned w' = w_pruned w || existsb (matched table f) syms
        ∧ Forall2 (placeholderOf table f) (List.filter (matched table f) syms) cs.

(** Every symbol of the list has a key, and the placeholder of every
    matched one can be rendered. *)
Definition walkable (table : gmap string Pos) (f : File) (syms : list symbol) : Prop :=
  ∀ s, In s syms ->
    (∃ k, key f (symbolNode s) = Ok k)
    ∧ ∀ pos, lookupSymbol table f s = Some pos -> ∃ c, render s pos = Ok c.
End Rendering.

(** The position given to the placeholder of a symbol. *)
Definition origPos (s : symbol) : Pos :=
  match s with
  | SymFunc node => FuncDecl_Pos node
  | SymValue parent _ => GenDecl_Pos parent - 1
  | SymType parent _ => GenDecl_Pos parent - 1
  end.

(** [strings.ReplaceAll(s, "\n", "\n// ")] *)
Fixpoint commentOutLines (s : string) : string :=
  match s with
  | EmptyString => EmptyString
  | String c rest =>
    if Ascii.eqb c "010"
    then String c ("// " +:+ commentOutLines rest)
    else String c (commentOutLines rest)
  end.

(** ** SymbolFilter *)

Module SymbolFilter.

Record t : Type := mk {
  FileSet : option token_FileSet;   (* nil or the file set of the parsed files *)
  WillPrune : gmap string Pos
}.

(** [IsEmpty] *)
Definition IsEmpty (sf : t) : bool := bool_decide (size (WillPrune sf) = 0%nat).

(** [position] *)
Definition position (sf : t) (pos : Pos) : Position :=
  match FileSet sf with
  | None => Position_zero
  | Some fset => fset pos
  end.

Definition abbreviated : Expr := EIdent (NewIdent "<abbreviated>").

(** The stub nodes [Prune] hands to [placeholder]. *)
Definition funcStub (node : FuncDecl) : Node :=
  NFuncDecl (mkFuncDecl None (Recv node) (FuncDecl_Name node) (FuncDecl_Type node) None).

Definition valueStub (parent : GenDecl) (name : Ident) : Node :=
  NGenDecl (mkGenDecl None (TokPos parent) (Tok parent) NoPos
              [SValue (mkValueSpec [name] (Some abbreviated) [])]).

Definition typeStub (parent : GenDecl) (node : TypeSpec) : Node :=
  NGenDecl (mkGenDecl None (GenDecl_Pos parent) TYPE NoPos
              [SType (mkTypeSpec (TypeSpec_Name node) NoPos abbreviated)]).

Definition stub (s : symbol) : Node :=
  match s with
  | SymFunc node => funcStub node
  | SymValue parent name => valueStub parent name
  | SymType parent node => typeStub parent node
  end.

Section WithPrinter.
(** [format.Node] into a string builder with the empty file set; [None]
    stands for an error. *)
Variable format_Node : Node -> option string.

(** [placeholder] *)
Definition placeholder (sf : t) (n : Node) (origPos replPos : Pos)
    : result CommentGroup :=
  match format_Node n with
  | None => Panic FormatFailed
  | Some buf =>
    let str := commentOutLines buf in
    Ok (mkCommentGroup
          [mkComment origPos
             ("// " +:+ str +:+ " — GopherJS replacement at "
                +:+ Position_String (position sf replPos))])
  end.

(** [Prune] *)
Definition Prune (sf : t) (f : File) : result (File * bool) :=
  pruneFile
    (λ node origPos pos, placeholder sf (funcStub node) origPos pos)
    (λ parent name origPos pos, placeholder sf (valueStub parent name) origPos pos)
    (λ parent node origPos pos, placeholder sf (typeStub parent node) origPos pos)
    (WillPrune sf) f.
End WithPrinter.

(** [c] is the comment [Prune] appends for the symbol [s] of [f]. *)
Definition placeholderFor (format_Node : Node -> option string) (sf : t) (f : File)
    (s : symbol) (c : CommentGroup) : Prop :=
  ∃ pos, lookupSymbol (WillPrune sf) f s = Some pos
         ∧ placeholder format_Node sf (stub s) (origPos s) pos = Ok c.

(** [Collect]: the filter with the file's symbols added, and false. *)
Definition Collect (sf : t) (f : File) : result (t * bool) :=
  '(table, changed) ← collectFile (WillPrune sf) f;
  Ok (mk (FileSet sf) table, changed).

End SymbolFilter.

(** ** augmenter *)

Module augmenter.

Record t : Type := mk {
  Replacements : gmap string Pos
}.

(** [IsEmpty] *)
Definition IsEmpty (a : t) : bool := bool_decide (size (Replacements a) = 0%nat).

(** The separator of the format string, as the source file has it. *)
Definition separator : string := " â€” ".

(** [placeholder] *)
Definition placeholder (fset : token_FileSet) (tok : Token) (name : string)
    (origPos replPos : Pos) : CommentGroup :=
  let str := "// " +:+ Token_String tok +:+ " " +:+ name +:+ separator
               +:+ "GopherJS replacement at " +:+ Position_String (fset replPos) in
  mkCommentGroup [mkComment origPos str].

(** [Prune] *)
Definition Prune (a : t) (fset : token_FileSet) (f : File) : result (File * bool) :=
  pruneFile
    (λ node origPos pos,
       name ← funcName node; Ok (placeholder fset FUNC name origPos pos))
    (λ parent name origPos pos,
       Ok (placeholder fset (Tok parent) (Name name) origPos pos))
    (λ parent node origPos pos,
       Ok (placeholder fset TYPE (Name (TypeSpec_Name node)) origPos pos))
    (Replacements a) f.

(** The kind and the name [Prune] passes to [placeholder] for a symbol. *)
Definition symbolKind (s : symbol) : Token :=
  match s with
  | SymFunc _ => FUNC
  | SymValue parent _ => Tok parent
  | SymType _ _ => TYPE
  end.

Definition symbolName (s : symbol) : result string :=
  match s with
  | SymFunc node => funcName node
  | SymValue _ name => Ok (Name name)
  | SymType _ node => Ok (Name (TypeSpec_Name node))
  end.

(** [c] is the comment [Prune] appends for the symbol [s] of [f]. *)
Definition placeholderFor (a : t) (fset : token_FileSet) (f : File)
    (s : symbol) (c : CommentGroup) : Prop :=
  ∃ pos name, lookupSymbol (Replacements a) f s = Some pos
              ∧ symbolName s = Ok name
              ∧ c = placeholder fset (symbolKind s) name (origPos s) pos.

(** [Collect] *)
Definition Collect (a : t) (fset : token_FileSet) (f : File) : result (t * bool) :=
  '(table, changed) ← collectFile (Replacements a) f;
  Ok (mk table, changed).

End augmenter.

(** ** Transformers *)

(** [astTransformer]: changes the file in place and reports whether it did. *)
Definition astTransformer : Type := token_FileSet -> File -> result (File * bool).

(** [chain].  In [modified = modified || right(fset, f)] the right operand
    of [||] is evaluated only when the left one is false. *)
Definition chain (left right : astTransformer) : astTransformer :=
  λ fset f,
    match left fset f with
    | Panic p => Panic p
    | Ok (f, modified) => if modified then Ok (f, true) else right fset f
    end.

(** [identity] *)
Definition identity : astTransformer := λ _ f, Ok (f, false).

(** ** nosync *)

Definition quote : string := String "034" EmptyString.
Definition quoted (s : string) : string := quote +:+ s +:+ quote.

Definition nosyncPath : string := quoted "github.com/gopherjs/gopherjs/nosync".

Section Nosync.
(** [strconv.Unquote]; [None] stands for an error, with which the
    returned string is empty. *)
Variable Unquote : string -> option string.

Definition importPath (spec : ImportSpec) : string :=
  default "" (Unquote (Value (Path spec))).

(** The body of the [if path == "sync"] branch. *)
Definition redirect (spec : ImportSpec) : ImportSpec :=
  mkImportSpec
    (match ImportSpec_Name spec with
     | None => Some (NewIdent "sync")
     | Some name => Some name
     end)
    (mkBasicLit (ValuePos (Path spec)) nosyncPath).

(** The loop over [f.Imports]; the specs are updated in the store. *)
Fixpoint nosyncLoop (imports : list loc) (objs : gmap loc ImportSpec)
    (modified : bool) : result (gmap loc ImportSpec * bool) :=
  match imports with
  | [] => Ok (objs, modified)
  | l :: rest =>
    match objs !! l with
    | None => Panic NilDereference
    | Some spec =>
      if bool_decide (importPath spec = "sync")
      then nosyncLoop rest (<[l := redirect spec]> objs) true
      else nosyncLoop rest objs modified
    end
  end.

(** [nosync] *)
Definition nosync : astTransformer :=
  λ _ f,
    match nosyncLoop (Imports f) (ImportObjs f) false with
    | Panic p => Panic p
    | Ok (objs, modified) =>
      Ok (mkFile (File_Doc f) (File_Name f) (Decls f) (Imports f) (Comments f) objs,
          modified)
    end.
End Nosync.

(** The import at [l] has the path "sync". *)
Definition syncAt (Unquote : string -> option string)
    (objs : gmap loc ImportSpec) (l : loc) : bool :=
  match objs !! l with
  | Some spec => bool_decide (importPath Unquote spec = "sync")
  | None => false
  end.

(** The import spec at [l] after [nosync] went through [imports]. *)
Definition redirected (Unquote : string -> option string)
    (imports : list loc) (l : loc) (spec : ImportSpec) : ImportSpec :=
  if bool_decide (l ∈ imports ∧ importPath Unquote spec = "sync")
  then redirect spec else spec.

(** ** Files on disk and the source pipeline *)

Inductive error : Type :=
  | ENOENT                              (* no such file or directory *)
  | EEXIST                              (* file exists *)
  | EACCES                              (* creation not permitted *)
  | ELOOP                               (* too many levels of symbolic links *)
  | EIO                                 (* a write to the file failed *)
  | ParseError
  | FormatError
  | AlreadyExists (path : string)       (* "file %q already exists" *)
  | Wrapped (msg : string) (err : error).

Inductive entry : Type :=
  | Regular (content : string)
  | Symlink (target : string).

(** The file system reached through package [os]: its files and symbolic
    links, each under the path that names it, the paths at which nothing
    can be created, and the files that take no byte (a full device).
    Directories are not part of it: a path stands for the entry it names,
    and only a link that is itself that entry is followed. *)
Record disk : Type := mkDisk {
  entries : gmap string entry;
  denied : gset string;
  unwritable : gset string
}.

(** [http.FileSystem]: [http.Dir], or an implementation serving files from
    memory. *)
Inductive FileSystem : Type :=
  | Dir (root : string)
  | Virtual (files : gmap string string).

(** What the operating system and the libraries decide: whether the text
    of a symbolic link is an absolute path, the path a relative text names
    from the link that holds it (it is taken from the link's directory, not
    from the working directory), how many links one look-up follows before
    it fails with ELOOP, and the name [http.Dir] looks up for the name it
    is asked for, [path.Clean] of the name made rooted, without the leading
    slash. *)
Class Platform : Type := {
  IsAbs : string -> bool;
  relativeTo : string -> string -> string;
  maxLinks : nat;
  cleanName : string -> string
}.

(** [os.IsNotExist] *)
Definition os_IsNotExist (err : option error) : bool :=
  match err with
  | Some ENOENT => true
  | _ => false
  end.

(** The bytes of a file are replaced. *)
Definition writeFile (d : disk) (file content : string) : disk :=
  mkDisk (<[file := Regular content]> (entries d)) (denied d) (unwritable d).

(** [os.Symlink]: fails when there is anything under the new name, be it a
    link that leads nowhere; the new name is not followed. *)
Definition os_Symlink (d : disk) (oldname newname : string) : option error * disk :=
  match entries d !! newname with
  | Some _ => (Some EEXIST, d)
  | None =>
    if bool_decide (newname ∈ denied d) then (Some EACCES, d)
    else (None, mkDisk (<[newname := Symlink oldname]> (entries d))
                  (denied d) (unwritable d))
  end.

Section Links.
Context `{Platform}.

(** The path the text of the link at [link] names. *)
Definition linkTarget (link text : string) : string :=
  if IsAbs text then text else relativeTo link text.

(** The file a path leads to: links are followed until a path is reached
    that is not a link, whether there is a file or nothing there; [None]
    when more than [n] links would have to be followed. *)
Fixpoint follow (n : nat) (d : disk) (path : string) : option string :=
  match entries d !! path with
  | Some (Symlink text) =>
    match n with
    | O => None
    | S n => follow n d (linkTarget path text)
    end
  | _ => Some path
  end.

(** The bytes read at a path through at most [n] links. *)
Definition readWithin (n : nat) (d : disk) (path : string) : option string :=
  match follow n d path with
  | Some file =>
    match entries d !! file with
    | Some (Regular content) => Some content
    | _ => None
    end
  | None => None
  end.

(** The bytes read at a path, as by [os.Open] and reading to the end. *)
Definition readFile (d : disk) (path : string) : option string :=
  readWithin maxLinks d path.

(** [os.Stat]: follows links; nil when the path leads to a file, ENOENT
    when it leads to nothing (a link whose target is missing included). *)
Definition os_Stat (d : disk) (path : string) : option error :=
  match follow maxLinks d path with
  | None => Some ELOOP
  | Some file =>
    match entries d !! file with
    | Some _ => None
    | None => Some ENOENT
    end
  end.

(** [os.Create]: opens the file the path leads to, creating it or
    truncating the one there is; a link at the path stays as it is.  The
    result is the file that was opened. *)
Definition os_Create (d : disk) (path : string) : (string + error) * disk :=
  match follow maxLinks d path with
  | None => (inr ELOOP, d)
  | Some file =>
    if bool_decide (file ∈ denied d) then (inr EACCES, d)
    else (inl file, writeFile d file "")
  end.
End Links.

Definition ioBufSize : Z := 10 * 1024.

Section Pipeline.
Context `{Platform}.
(** [parser.ParseFile] with comments, from the file name and the bytes. *)
Variable ParseFile : string -> string -> option File.
(** [format.Node] of a whole file. *)
Variable formatFile : File -> option string.
(** [filepath.Join] and [filepath.Base]. *)
Variable Join : string -> string -> string.
Variable Base : string -> string.

(** [fs.Open] followed by reading the file.  [http.Dir] opens the cleaned
    name under its root, the working directory when the root is empty. *)
Definition Open (d : disk) (fs : FileSystem) (path : string) : option string :=
  match fs with
  | Dir root =>
    readFile d (Join (if bool_decide (root = "") then "." else root) (cleanName path))
  | Virtual files => files !! path
  end.

(** [loadAST] *)
Definition loadAST (d : disk) (fs : FileSystem) (loadPath writePath : string)
    : File + error :=
  match Open d fs loadPath with
  | None => inr ENOENT
  | Some src =>
    match ParseFile (Base writePath) src with
    | Some f => inl f
    | None => inr ParseError
    end
  end.

(** [writeAST].  The printed text goes through a buffer of [ioBufSize]
    bytes: the file is written while [format.Node] runs only once the
    buffer is full, and what the buffer holds in the end is written by the
    deferred [Flush], whose error is dropped. *)
Definition writeAST (d : disk) (path : string) (source : File)
    : option error * disk :=
  if negb (os_IsNotExist (os_Stat d path)) then (Some (AlreadyExists path), d)
  else
    match os_Create d path with
    | (inr err, d) => (Some err, d)
    | (inl f, d) =>
      match formatFile source with
      | Some text =>
        if bool_decide (f ∈ unwritable d)
        then (if bool_decide (ioBufSize < Z.of_nat (String.length text))
              then Some EIO else None, d)
        else (None, writeFile d f text)
      | None => (Some FormatError, d)
      end
    end.

(** [copyUnmodified].  [io.Copy] writes nothing for an empty source. *)
Definition copyUnmodified (d : disk) (loadFS : FileSystem)
    (loadPath writePath : string) : option error * disk :=
  match loadFS with
  | Dir realFS => os_Symlink d (Join realFS loadPath) writePath
  | _ =>
    match Open d loadFS loadPath with
    | None => (Some (Wrapped "failed to open source file" ENOENT), d)
    | Some from =>
      match os_Create d writePath with
      | (inr err, d) => (Some (Wrapped "failed to open destination file" err), d)
      | (inl to, d) =>
        if bool_decide (to ∈ unwritable d ∧ from ≠ "")
        then (Some (Wrapped "failed to copy file content" EIO), d)
        else (None, writeFile d to from)
      end
    end
  end.

(** [processSource] *)
Definition processSource (fset : token_FileSet) (d : disk) (loadFS : FileSystem)
    (loadPath writePath : string) (transform : astTransformer)
    : result (option error * disk) :=
  match loadAST d loadFS loadPath writePath with
  | inr err => Ok (Some (Wrapped "failed to load AST" err), d)
  | inl source =>
    match transform fset source with
    | Panic p => Panic p
    | Ok (source, changed) =>
      if negb changed then Ok (copyUnmodified d loadFS loadPath writePath)
      else
        match writeAST d writePath source with
        | (Some err, d) => Ok (Some (Wrapped "failed to write" err), d)
        | (None, d) => Ok (None, d)
        end
    end
  end.
End Pipeline.

(** ** Receivers *)

(** The type expression of a method's receiver. *)
Definition receiverType (d : FuncDecl) : option Expr :=
  match Recv d with
  | Some fl =>
    match FList fl with
    | fld :: _ => Some (Field_Type fld)
    | [] => None
    end
  | None => None
  end.

Definition identOrPointerToIdent (e : Expr) : bool :=
  match e with
  | EIdent _ => true
  | StarExpr _ (EIdent _) => true
  | _ => false
  end.

(** All names of a value spec, resp. the name of a type spec, are in the
    table. *)
Definition specFullyMatched (table : gmap string Pos) (f : File) (s : Spec) : bool :=
  match s with
  | SValue v => forallb (nameMatched table f) (Names v)
  | SType t => typeMatched table f t
  | SImport _ => false
  end.

(** The key of a symbol that has one. *)
Definition symbolKey (f : File) (s : symbol) : string :=
  match key f (symbolNode s) with
  | Ok k => k
  | Panic _ => ""
  end.

(** The position [Collect] records for a symbol. *)
Definition symbolPos (s : symbol) : Pos :=
  match s with
  | SymFunc node => FuncDecl_Pos node
  | SymValue _ name => NamePos name
  | SymType _ node => TypeSpec_Pos node
  end.

(** The table after the symbols of a list were entered in order. *)
Definition enter (f : File) (t : gmap string Pos) (syms : list symbol) : gmap string Pos :=
  foldl (λ t s, <[symbolKey f s := symbolPos s]> t) t syms.

(** The import specs a list of declarations refers to, in order. *)
Definition specImport (s : Spec) : option loc :=
  match s with SImport l => Some l | _ => None end.

Definition declImports (d : Decl) : list loc :=
  match d with
  | DGen g => omap specImport (Specs g)
  | _ => []
  end.

Definition isImportDecl (d : Decl) : bool :=
  match d with
  | DGen g => bool_decide (Tok g = IMPORT)
  | _ => false
  end.

(** ** Sample inputs

    The renderings of [go/printer] and [strconv.Unquote] used to run the
    model, and files taken from the package's tests. *)

Fixpoint joinWith (sep : string) (l : list string) : string :=
  match l with
  | [] => ""
  | [s] => s
  | s :: rest => s +:+ sep +:+ joinWith sep rest
  end.

Fixpoint printExpr (e : Expr) : string :=
  match e with
  | EIdent id => Name id
  | StarExpr _ x => "*" +:+ printExpr x
  | IndexExpr x i => printExpr x +:+ "[" +:+ printExpr i +:+ "]"
  | ParenExpr _ x => "(" +:+ printExpr x +:+ ")"
  | SelectorExpr x sel => printExpr x +:+ "." +:+ Name sel
  | OtherExpr src => src
  end.

Definition printField (fld : Field) : string :=
  match Field_Names fld with
  | [] => printExpr (Field_Type fld)
  | names => joinWith ", " (map Name names) +:+ " " +:+ printExpr (Field_Type fld)
  end.

Definition printFields (fl : FieldList) : string :=
  "(" +:+ joinWith ", " (map printField (FList fl)) +:+ ")".

Definition printResults (r : option FieldList) : string :=
  match r with
  | None => ""
  | Some fl =>
    match FList fl with
    | [fld] =>
      match Field_Names fld with
      | [] => " " +:+ printExpr (Field_Type fld)
      | _ => " " +:+ printFields fl
      end
    | _ => " " +:+ printFields fl
    end
  end.

(** The text [format.Node] gives for the stubs [SymbolFilter.Prune]
    builds: a function header without body, and a one-spec [var], [const]
    or [type] declaration, as the expected outputs of the package's tests
    show them ("func (SomeType) SomeMethod(b int)", "var V1 <abbreviated>",
    "type T1 <abbreviated>"). *)
Definition printStub (n : Node) : option string :=
  match n with
  | NFuncDecl d =>
    Some ("func "
            +:+ match Recv d with Some r => printFields r +:+ " " | None => "" end
            +:+ Name (FuncDecl_Name d)
            +:+ printFields (Params (FuncDecl_Type d))
            +:+ printResults (Results (FuncDecl_Type d)))
  | NGenDecl g =>
    match Specs g with
    | [SValue v] =>
      match Names v, ValueSpec_Type v, Values v with
      | [name], Some t, [] =>
        Some (Token_String (Tok g) +:+ " " +:+ Name name +:+ " " +:+ printExpr t)
      | _, _, _ => None
      end
    | [SType t] =>
      Some ("type " +:+ Name (TypeSpec_Name t) +:+ " " +:+ printExpr (TypeSpec_Type t))
    | _ => None
    end
  | _ => None
  end.

(** [strconv.Unquote] on an interpreted string literal without escape
    sequences; anything else is reported as an error. *)
Fixpoint dropLastQuote (s : string) : option string :=
  match s with
  | EmptyString => None
  | String c EmptyString => if Ascii.eqb c "034" then Some "" else None
  | String c rest =>
    if Ascii.eqb c "034" || Ascii.eqb c "092" then None
    else String c <$> dropLastQuote rest
  end.

Definition unquotePlain (s : string) : option string :=
  match s with
  | String c rest => if Ascii.eqb c "034" then dropLastQuote rest else None
  | EmptyString => None
  end.

(** The file set of the tests: one file "example.go", all on line 1. *)
Definition exampleFset : token_FileSet :=
  λ p, mkPosition "example.go" (p - 1) 1 p.

Definition noParams : FieldList := mkFieldList NoPos [].
Definition ident (pos : Pos) (name : string) : Ident := mkIdent pos name.
Definition unnamed (t : Expr) : Field := mkField [] t.

Definition simpleFunc (pos : Pos) (name : string) : FuncDecl :=
  mkFuncDecl None None (ident (pos + 5) name) (mkFuncType pos noParams None) (Some "{}").

Definition method (pos : Pos) (recv : Expr) (name : string) : FuncDecl :=
  mkFuncDecl None (Some (mkFieldList (pos + 5) [unnamed recv])) (ident (pos + 9) name)
    (mkFuncType pos noParams None) (Some "{}").

Definition sourceFile (pkg : string) (decls : list Decl) : File :=
  mkFile None (ident 9 pkg) decls [] [] ∅.

(** [package x; func F() (int, int) {return 1, 2}; var V1, V2 = F()] *)
Definition multiVarDecl : GenDecl :=
  mkGenDecl None 47 VAR NoPos
    [SValue (mkValueSpec [ident 51 "V1"; ident 55 "V2"] None ["F()"])].

Definition multiVarFile : File :=
  sourceFile "x"
    [DFunc (mkFuncDecl None None (ident 17 "F")
              (mkFuncType 12 noParams
                 (Some (mkFieldList 21 [unnamed (EIdent (ident 22 "int"));
                                        unnamed (EIdent (ident 27 "int"))])))
              (Some "{return 1, 2}"));
     DGen multiVarDecl].

(** [package x; var (V1 int; V2 int)] *)
Definition varGroupDecl : GenDecl :=
  mkGenDecl None 12 VAR 16
    [SValue (mkValueSpec [ident 17 "V1"] (Some (EIdent (ident 20 "int"))) []);
     SValue (mkValueSpec [ident 25 "V2"] (Some (EIdent (ident 28 "int"))) [])].

Definition varGroupFile : File := sourceFile "x" [DGen varGroupDecl].

(** [package x; type T1 int; func Func() {}; func OtherFunc() {}] *)
Definition typeT1Decl : GenDecl :=
  mkGenDecl None 12 TYPE NoPos
    [SType (mkTypeSpec (ident 17 "T1") NoPos (EIdent (ident 20 "int")))].

Definition funcFile : File :=
  sourceFile "x" [DGen typeT1Decl; DFunc (simpleFunc 25 "Func");
                  DFunc (simpleFunc 41 "OtherFunc")].

(** [package x; type T int; func (T) M() {}; func ( *T) M() {}] *)
Definition valueMethod : FuncDecl := method 24 (EIdent (ident 30 "T")) "M".
Definition pointerMethod : FuncDecl :=
  method 42 (StarExpr 48 (EIdent (ident 49 "T"))) "M".

Definition methodFile : File :=
  sourceFile "x"
    [DGen (mkGenDecl None 12 TYPE NoPos
             [SType (mkTypeSpec (ident 17 "T") NoPos (EIdent (ident 19 "int")))]);
     DFunc valueMethod; DFunc pointerMethod].

(** [package x; func (T[P]) M() {}; func Other() {}] *)
Definition genericMethod : FuncDecl :=
  method 12 (IndexExpr (EIdent (ident 18 "T")) (EIdent (ident 20 "P"))) "M".

Definition genericFile : File :=
  sourceFile "x" [DFunc genericMethod; DFunc (simpleFunc 30 "Other")].

(** [package x; import ("foo/bar"; "sync"; stdsync "sync");
    import "github.com/gopherjs/gopherjs/nosync"; func Func() {}] *)
Definition importsFile : File :=
  mkFile None (ident 9 "x")
    [DGen (mkGenDecl None 12 IMPORT 19 [SImport 0%nat; SImport 1%nat; SImport 2%nat]);
     DGen (mkGenDecl None 60 IMPORT NoPos [SImport 3%nat]);
     DFunc (simpleFunc 110 "Func")]
    [0%nat; 1%nat; 2%nat; 3%nat] []
    (list_to_map
       [(0%nat, mkImportSpec None (mkBasicLit 20 (quoted "foo/bar")));
        (1%nat, mkImportSpec None (mkBasicLit 31 (quoted "sync")));
        (2%nat, mkImportSpec (Some (ident 39 "stdsync")) (mkBasicLit 47 (quoted "sync")));
        (3%nat, mkImportSpec None (mkBasicLit 67 nosyncPath))]).

(** A symbol table holding the given keys, all replaced at position 11 of
    "example.go", as the tests build it. *)
Definition tableOf (keys : list string) : gmap string Pos :=
  list_to_map (map (λ k, (k, 11)) keys).

Definition filterOf (keys : list string) : SymbolFilter.t :=
  SymbolFilter.mk (Some exampleFset) (tableOf keys).

(** [importsFile] after pruning [x.Func]. *)
Definition prunedImportsFile : File :=
  withDecls importsFile
    [DGen (mkGenDecl None 12 IMPORT 19 [SImport 0%nat; SImport 1%nat; SImport 2%nat]);
     DGen (mkGenDecl None 60 IMPORT NoPos [SImport 3%nat])]
    [mkCommentGroup
       [mkComment 110 "// func Func() — GopherJS replacement at example.go:1:11"]].

(** [varGroupFile] after pruning [x.V1] and [x.V2]. *)
Definition prunedVarGroupFile : File :=
  withDecls varGroupFile []
    [mkCommentGroup
       [mkComment 11 "// var V1 <abbreviated> — GopherJS replacement at example.go:1:11"];
     mkCommentGroup
       [mkComment 11 "// var V2 <abbreviated> — GopherJS replacement at example.go:1:11"]].

(** [multiVarFile] after pruning [x.V1]. *)
Definition prunedMultiVarFile : File :=
  withDecls multiVarFile
    [DFunc (mkFuncDecl None None (ident 17 "F")
              (mkFuncType 12 noParams
                 (Some (mkFieldList 21 [unnamed (EIdent (ident 22 "int"));
                                        unnamed (EIdent (ident 27 "int"))])))
              (Some "{return 1, 2}"));
     DGen (mkGenDecl None 47 VAR NoPos
             [SValue (mkValueSpec [NewIdent "_"; ident 55 "V2"] None ["F()"])])]
    [mkCommentGroup
       [mkComment 46 "// var V1 <abbreviated> — GopherJS replacement at example.go:1:11"]].

(** The text the specification gives for the placeholder of a declaration
    of kind [K] and name [N] replaced at position [p]. *)
Definition specifiedText (K N : string) (p : Position) : string :=
  "// " +:+ K +:+ " " +:+ N +:+ " — GopherJS replacement at "
    +:+ Filename p +:+ ":" +:+ Itoa (Line p) +:+ ":" +:+ Itoa (Column p).

(** [funcFile] after [SymbolFilter.Prune] and after [augmenter.Prune],
    both for [x.T1] and [x.Func]. *)
Definition prunedFuncFile : File :=
  withDecls funcFile [DFunc (simpleFunc 41 "OtherFunc")]
    [mkCommentGroup
       [mkComment 11 "// type T1 <abbreviated> — GopherJS replacement at example.go:1:11"];
     mkCommentGroup
       [mkComment 25 "// func Func() — GopherJS replacement at example.go:1:11"]].

Definition augmentedFuncFile : File :=
  withDecls funcFile [DFunc (simpleFunc 41 "OtherFunc")]
    [mkCommentGroup
       [mkComment 11 ("// type T1" +:+ augmenter.separator
                        +:+ "GopherJS replacement at example.go:1:11")];
     mkCommentGroup
       [mkComment 25 ("// func Func" +:+ augmenter.separator
                        +:+ "GopherJS replacement at example.go:1:11")]].

(** [importsFile] after [nosync]. *)
Definition redirectedImportsFile : File :=
  mkFile None (ident 9 "x") (Decls importsFile) (Imports importsFile) []
    (list_to_map
       [(0%nat, mkImportSpec None (mkBasicLit 20 (quoted "foo/bar")));
        (1%nat, mkImportSpec (Some (NewIdent "sync")) (mkBasicLit 31 nosyncPath));
        (2%nat, mkImportSpec (Some (ident 39 "stdsync")) (mkBasicLit 47 nosyncPath));
        (3%nat, mkImportSpec None (mkBasicLit 67 nosyncPath))]).

(** A destination that exists, and a source served from memory. *)
Definition occupiedDisk : disk :=
  mkDisk {["out/a.go" := Regular "package old"]} ∅ ∅.

Definition memoryFS : FileSystem := Virtual {["a.go" := "package x"]}.

Definition joinPath (a b : string) : string := a +:+ "/" +:+ b.

(** A platform for the examples: a path is absolute when it starts with a
    slash, a relative link text is appended to the directory of its link,
    a look-up follows forty links, and names are clean as they are. *)
Definition startsWithSlash (s : string) : bool :=
  match s with
  | String c _ => bool_decide (c = "/"%char)
  | EmptyString => false
  end.

Fixpoint beforeLastSlash (s : string) : option string :=
  match s with
  | EmptyString => None
  | String c rest =>
    match beforeLastSlash rest with
    | Some dir => Some (String c dir)
    | None => if bool_decide (c = "/"%char) then Some EmptyString else None
    end
  end.

Definition fromLinkDir (link text : string) : string :=
  match beforeLastSlash link with
  | Some dir => joinPath dir text
  | None => text
  end.

#[global] Instance samplePlatform : Platform :=
  {| IsAbs := startsWithSlash; relativeTo := fromLinkDir;
     maxLinks := 40; cleanName := id |}.

(** A source on the real file system under the relative root [src], and a
    destination that is a link to a file that does not exist. *)
Definition sourceDisk : disk :=
  mkDisk {["src/a.go" := Regular "package x"]} ∅ ∅.

Definition danglingDisk : disk :=
  mkDisk {["out/a.go" := Symlink "/store/a.go"]} ∅ ∅.

(** The same source under the absolute root [/go/src]. *)
Definition rootedDisk : disk :=
  mkDisk {["/go/src/a.go" := Regular "package x"]} ∅ ∅.

(** The source of the collect test: a function, a struct type with a
    method, a variable, a constant, an interface and an alias. *)
Definition exampleSource : File :=
  sourceFile "example"
    [DFunc (simpleFunc 17 "SomeFunc");
     DGen (mkGenDecl None 36 TYPE NoPos
             [SType (mkTypeSpec (ident 41 "SomeType") NoPos (OtherExpr "struct{}"))]);
     DFunc (mkFuncDecl None
              (Some (mkFieldList 64 [unnamed (EIdent (ident 65 "SomeType"))]))
              (ident 75 "SomeMethod")
              (mkFuncType 59
                 (mkFieldList 85 [mkField [ident 86 "b"] (EIdent (ident 88 "int"))])
                 None)
              (Some "{}"));
     DGen (mkGenDecl None 96 VAR NoPos
             [SValue (mkValueSpec [ident 100 "SomeVar"] (Some (EIdent (ident 108 "int"))) [])]);
     DGen (mkGenDecl None 112 CONST NoPos
             [SValue (mkValueSpec [ident 118 "SomeConst"] None ["0"])]);
     DGen (mkGenDecl None 132 TYPE NoPos
             [SType (mkTypeSpec (ident 137 "SomeIface") NoPos
                       (OtherExpr "interface { SomeMethod(a int) }"))]);
     DGen (mkGenDecl None 180 TYPE NoPos
             [SType (mkTypeSpec (ident 185 "SomeAlias") 195 (EIdent (ident 197 "SomeType")))])].

(** [package x; var (); var V int] *)
Definition emptyGroupFile : File :=
  sourceFile "x"
    [DGen (mkGenDecl None 12 VAR 16 []);
     DGen (mkGenDecl None 20 VAR NoPos
             [SValue (mkValueSpec [ident 24 "V"] (Some (EIdent (ident 26 "int"))) [])])].

(** [package x; import (); var V int] *)
Definition emptyImportDecl : GenDecl := mkGenDecl None 12 IMPORT 19 [].

Definition emptyImportFile : File :=
  sourceFile "x"
    [DGen emptyImportDecl;
     DGen (mkGenDecl None 23 VAR NoPos
             [SValue (mkValueSpec [ident 27 "V"] (Some (EIdent (ident 29 "int"))) [])])].

(** [package x; var ( /* kept */ V1 int )]: a group with a comment of its
    own, which the parser enters into the comment list of the file. *)
Definition ownComment : CommentGroup := mkCommentGroup [mkComment 18 "/* kept */"].

Definition commentedGroupFile : File :=
  mkFile None (ident 9 "x")
    [DGen (mkGenDecl None 12 VAR 16
             [SValue (mkValueSpec [ident 29 "V1"] (Some (EIdent (ident 32 "int"))) [])])]
    [] [ownComment] ∅.

(** ** Descriptions used by the further properties *)

(** The position of the last symbol of the list that has the key [k]. *)
Definition lastEntry (f : File) (syms : list symbol) (k : string) : option Pos :=
  foldl (λ acc s, if bool_decide (symbolKey f s = k) then Some (symbolPos s) else acc)
        None syms.

(** The function declarations among a list of declarations, in order. *)
Definition asFunc (d : Decl) : option FuncDecl :=
  match d with DFunc node => Some node | _ => None end.

(** The positions of the comments of a list of comment groups. *)
Definition slashes (cs : list CommentGroup) : list (list Pos) :=
  map (λ c, map Slash (CList c)) cs.

(** ** Signatures (package typesutil)

    [go/types] as far as [Signature] reads it: a type is a named type, a
    pointer, a slice or something else; a tuple is a list of variables, the
    tuple of no variables being the nil [*types.Tuple] that
    [types.NewTuple] returns for it; a nil [types.Type] or [*types.Named]
    is [None]. *)

Module typesutil.

Inductive GoType : Type :=
  | Named (obj : string)            (* a named type, with the name of its object *)
  | Pointer (elem : GoType)
  | Slice (elem : GoType)
  | Basic (name : string)
  | OtherType (descr : string).

Record Var : Type := mkVar {
  Var_Name : string;
  Var_Type : GoType
}.

Record Signature : Type := mkSignature {
  Sig_Recv : option Var;
  Sig_Params : list Var;
  Sig_Results : list Var;
  Sig_Variadic : bool;
  Sig_TypeParams : list string;
  Sig_RecvTypeParams : list string
}.

Inductive abort : Type :=
  | NilDereference                  (* Tuple.At on the nil tuple *)
  | IndexOutOfRange                 (* Tuple.At outside the tuple *)
  | NonVariadic (i : Z)             (* "Tried to access parameter %d of a non-variadic signature" *)
  | NotASlice                       (* type assertion to a slice type *)
  | NotNamed.                       (* type assertion to a named type *)

Inductive outcome (A : Type) : Type :=
  | Return (a : A)
  | Abort (e : abort).
Arguments Return {A} a.
Arguments Abort {A} e.

Definition bind {A B} (m : outcome A) (k : A -> outcome B) : outcome B :=
  match m with
  | Return a => k a
  | Abort e => Abort e
  end.

(** [Tuple.Len] and [Tuple.At].  [Len] answers 0 for the nil tuple; [At]
    indexes the variables of the tuple without looking whether there is
    one. *)
Definition Len (t : list Var) : Z := Z.of_nat (length t).

Definition At (t : list Var) (i : Z) : outcome Var :=
  match t with
  | [] => Abort NilDereference
  | _ =>
    if (0 <=? i) && (i <? Len t)
    then match t !! Z.to_nat i with
         | Some v => Return v
         | None => Abort IndexOutOfRange
         end
    else Abort IndexOutOfRange
  end.

(** [RequiredParams] *)
Definition RequiredParams (st : Signature) : Z :=
  let l := Len (Sig_Params st) in
  if Sig_Variadic st then l - 1 else l.

(** [VariadicType] *)
Definition VariadicType (st : Signature) : outcome (option GoType) :=
  if negb (Sig_Variadic st) then Return None
  else bind (At (Sig_Params st) (Len (Sig_Params st) - 1))
            (λ v, Return (Some (Var_Type v))).

(** [Param] *)
Definition Param (st : Signature) (i : Z) (ellipsis : bool) : outcome (option GoType) :=
  if i <? RequiredParams st then
    bind (At (Sig_Params st) i) (λ v, Return (Some (Var_Type v)))
  else if negb (Sig_Variadic st) then Abort (NonVariadic i)
  else if ellipsis then VariadicType st
  else bind (VariadicType st)
            (λ t, match t with
                  | Some (Slice elem) => Return (Some elem)
                  | _ => Abort NotASlice
                  end).

(** [HasResults] *)
Definition HasResults (st : Signature) : bool := 0 <? Len (Sig_Results st).

(** [HasNamedResults]; [&&] evaluates [At(0)] only when there are results. *)
Definition HasNamedResults (st : Signature) : outcome bool :=
  if HasResults st
  then bind (At (Sig_Results st) 0) (λ v, Return (negb (bool_decide (Var_Name v = ""))))
  else Return false.

(** [IsGeneric] *)
Definition IsGeneric (st : Signature) : bool :=
  (0 <? Z.of_nat (length (Sig_TypeParams st)))
  || (0 <? Z.of_nat (length (Sig_RecvTypeParams st))).

(** [RecvType]: the object name of the named receiver type. *)
Definition RecvType (st : Signature) : outcome (option string) :=
  match Sig_Recv st with
  | None => Return None
  | Some recv =>
    let typ := Var_Type recv in
    let typ := match typ with Pointer elem => elem | _ => typ end in
    match typ with
    | Named obj => Return (Some obj)
    | _ => Abort NotNamed
    end
  end.

(** [RecvTypeName] *)
Definition RecvTypeName (st : Signature) : outcome string :=
  bind (RecvType st)
       (λ typ, match typ with
               | None => Return ""
               | Some obj => Return obj
               end).

(** A signature [func(a int, rest ...string)] and a method on [*T]. *)
Definition variadicSig : Signature :=
  mkSignature None [mkVar "a" (Basic "int"); mkVar "rest" (Slice (Basic "string"))]
    [] true [] [].

Definition plainSig : Signature :=
  mkSignature (Some (mkVar "t" (Pointer (Named "T"))))
    [mkVar "a" (Basic "int"); mkVar "b" (Basic "bool")] [mkVar "" (Basic "error")]
    false [] [].

End typesutil.

(** ** Package source times (package build)

    Times are integers.  [time.Now()], the build time of the compiler and
    the function reporting the modification time of a path (none when the
    path cannot be examined) are parameters; so are the directory and the
    source files of the package, whose type is declared elsewhere. *)

Module build.
Section ModTime.
Variable gopherjsBuildTime : Z.
Variable now : Z.
(** [os.Stat], used when no function is given. *)
Variable osStat : string -> option Z.
(** [path.Join] *)
Variable Join : string -> string -> string.

(** The loop of [pkgModTime]. *)
Fixpoint latest (statFn : string -> option Z) (dir : string) (sources : list string)
    (t : Z) : Z :=
  match sources with
  | [] => t
  | f :: rest =>
    match statFn (Join dir f) with
    | None => now
    | Some modTime => latest statFn dir rest (if t <? modTime then modTime else t)
    end
  end.

(** [pkgModTime] *)
Definition pkgModTime (dir : string) (sources : list string)
    (statFn : option (string -> option Z)) : Z :=
  let statFn := match statFn with None => osStat | Some fn => fn end in
  latest statFn dir sources gopherjsBuildTime.
End ModTime.

(** Modification times of the files of a sample package. *)
Definition sampleStat (path : string) : option Z :=
  if bool_decide (path = "pkg/a.go") then Some 30
  else if bool_decide (path = "pkg/b.go") then Some 70
  else None.
End build.

(** * The package's tests, on the model *)

Example test_Collect :
  ∃ sf, SymbolFilter.Collect (SymbolFilter.mk None ∅) exampleSource = Ok (sf, false)
        ∧ dom (SymbolFilter.WillPrune sf)
          = list_to_set ["example.SomeAlias"; "example.SomeConst"; "example.SomeFunc";
                         "example.SomeIface"; "example.SomeType";
                         "example.SomeType.SomeMethod"; "example.SomeVar"].
Proof. eexists. split; [reflexivity|]. vm_compute. reflexivity. Qed.

Example test_Prune_smoke :
  ∃ f', SymbolFilter.Prune printStub
          (filterOf ["example.SomeFunc"; "example.SomeType.SomeMethod"]) exampleSource
        = Ok (f', true)
        ∧ map (λ c, map Text (CList c)) (Comments f')
          = [["// func SomeFunc() — GopherJS replacement at example.go:1:11"];
             ["// func (SomeType) SomeMethod(b int) — GopherJS replacement at example.go:1:11"]]
        ∧ length (Decls f') = 5%nat.
Proof. eexists. repeat split; reflexivity. Qed.

Example test_Prune_multi_var_partial :
  SymbolFilter.Prune printStub (filterOf ["x.V1"]) multiVarFile
  = Ok (prunedMultiVarFile, true).
Proof. reflexivity. Qed.

Example test_Prune_var_group :
  SymbolFilter.Prune printStub (filterOf ["x.V1"; "x.V2"]) varGroupFile
  = Ok (prunedVarGroupFile, true).
Proof. reflexivity. Qed.

Example test_Prune_empty_filter :
  SymbolFilter.Prune printStub (filterOf []) varGroupFile = Ok (varGroupFile, false).
Proof. reflexivity. Qed.

(** A group that was empty before is removed by the clean-up pass although
    nothing matched and the result is false. *)
Example Prune_drops_empty_group :
  ∃ f', SymbolFilter.Prune printStub (filterOf ["x.Other"]) emptyGroupFile
        = Ok (f', false)
        ∧ length (Decls emptyGroupFile) = 2%nat ∧ length (Decls f') = 1%nat.
Proof. eexists. repeat split; reflexivity. Qed.

Example test_nosync :
  nosync unquotePlain exampleFset importsFile = Ok (redirectedImportsFile, true).
Proof. vm_compute. reflexivity. Qed.

Example test_nosync_not_imported :
  nosync unquotePlain exampleFset redirectedImportsFile
  = Ok (redirectedImportsFile, false).
Proof. vm_compute. reflexivity. Qed.

(** * Facts about the traversal *)

(** The proof that a lookup which gave nothing is not a match. *)
Ltac no_entry := apply bool_decide_eq_false; intros [? ?]; discriminate.

Lemma bind_Ok {A B} (m : result A) (k : A -> result B) (b : B) :
  m ≫= k = Ok b -> ∃ a, m = Ok a ∧ k a = Ok b.
Proof. destruct m as [a|p]; simpl; [eauto | discriminate]. Qed.

Lemma matched_value table f parent name :
  matched table f (SymValue parent name) = nameMatched table f name.
Proof. reflexivity. Qed.

Lemma matched_type table f parent t :
  matched table f (SymType parent t) = typeMatched table f t.
Proof. reflexivity. Qed.

Lemma filter_all_length {A} (p : A -> bool) (l : list A) :
  length (List.filter p l) = length l <-> forallb p l = true.
Proof.
  induction l as [|x l IH]; simpl; [tauto|].
  destruct (p x); simpl.
  - rewrite <- IH. lia.
  - pose proof (List.filter_length_le p l). split; [lia | discriminate].
Qed.

Section TraversalFacts.
Variable placeholderFunc : FuncDecl -> Pos -> Pos -> result CommentGroup.
Variable placeholderValue : GenDecl -> Ident -> Pos -> Pos -> result CommentGroup.
Variable placeholderType : GenDecl -> TypeSpec -> Pos -> Pos -> result CommentGroup.
Variable table : gmap string Pos.
Variable f : File.

#[local] Abbreviation render := (render placeholderFunc placeholderValue placeholderType).
#[local] Abbreviation placeholderOf :=
  (placeholderOf placeholderFunc placeholderValue placeholderType table f).
#[local] Abbreviation emits :=
  (emitted placeholderFunc placeholderValue placeholderType table f).
#[local] Abbreviation walks :=
  (walkable placeholderFunc placeholderValue placeholderType table f).

Lemma emitted_nil w : emits [] w w.
Proof.
  exists []. rewrite app_nil_r, orb_false_r. repeat split. constructor.
Qed.

Lemma emitted_app s1 s2 w w1 w2 :
  emits s1 w w1 -> emits s2 w1 w2 -> emits (s1 ++ s2) w w2.
Proof.
  intros (c1 & E1 & P1 & F1) (c2 & E2 & P2 & F2). exists (c1 ++ c2).
  rewrite E2, E1, P2, P1, List.filter_app, existsb_app, app_assoc, orb_assoc.
  repeat split. by apply Forall2_app.
Qed.

Lemma emitted_skip s w : matched table f s = false -> emits [s] w w.
Proof.
  intros H. exists []. simpl. rewrite H, app_nil_r, orb_false_r.
  repeat split. constructor.
Qed.

Lemma emitted_emit s pos c w :
  lookupSymbol table f s = Some pos -> render s pos = Ok c ->
  emits [s] w (emit c w).
Proof.
  intros L R. exists [c].
  assert (M : matched table f s = true).
  { unfold matched. rewrite L. apply bool_decide_eq_true. eauto. }
  simpl. rewrite M, orb_true_r. repeat split.
  constructor; [|constructor]. exists pos. auto.
Qed.

Lemma pruneNames_spec parent names r w names' r' w' :
  pruneNames placeholderValue table f parent names r w = Ok (names', r', w') ->
  names' = map (blankName table f) names
  ∧ r' = r - Z.of_nat (length (List.filter (nameMatched table f) names))
  ∧ emits (map (SymValue parent) names) w w'.
Proof.
  revert r w names' r' w'.
  induction names as [|name rest IH]; intros r w names' r' w' H; simpl in H.
  - injection H as <- <- <-. simpl. split; [done|]. split; [lia|]. apply emitted_nil.
  - unfold blankName at 1. simpl. unfold nameMatched at 1 3.
    destruct (table !! _) as [pos|] eqn:L.
    + apply bind_Ok in H as (c & Hc & H).
      apply bind_Ok in H as ([[rest' r1] w1] & Hrest & H).
      injection H as <- <- <-.
      apply IH in Hrest as (-> & -> & E).
      rewrite bool_decide_eq_true_2 by eauto. simpl.
      split; [done|]. split; [lia|].
      apply (emitted_app [SymValue parent name] _ w (emit c w)); [|done].
      by apply emitted_emit with pos.
    + apply bind_Ok in H as ([[rest' r1] w1] & Hrest & H).
      injection H as <- <- <-.
      apply IH in Hrest as (-> & -> & E).
      rewrite bool_decide_eq_false_2 by (intros [? ?]; discriminate).
      split; [done|]. split; [done|].
      apply (emitted_app [SymValue parent name] _ w w); [|done].
      apply emitted_skip. unfold matched, lookupSymbol. simpl. rewrite L.
      no_entry.
Qed.

Lemma visitSpec_spec parent s w r w' :
  visitSpec placeholderValue placeholderType table f parent s w = Ok (r, w') ->
  r = specAfter table f s ∧ emits (specSymbols parent s) w w'.
Proof.
  destruct s as [l|v|t]; simpl; intros H.
  - injection H as <- <-. split; [done|apply emitted_nil].
  - apply bind_Ok in H as ([[names r1] w1] & Hn & H).
    apply pruneNames_spec in Hn as (-> & -> & E).
    pose proof (filter_all_length (nameMatched table f) (Names v)) as FA.
    pose proof (List.filter_length_le (nameMatched table f) (Names v)) as LE.
    case_bool_decide as Hr; injection H as <- <-; (split; [|done]).
    + rewrite (proj1 FA); [done|lia].
    + destruct (forallb _ _) eqn:Fb; [|done].
      exfalso. apply Hr. destruct FA as [_ FA]. rewrite FA by done. lia.
  - unfold typeMatched. destruct (table !! _) as [pos|] eqn:L.
    + apply bind_Ok in H as (c & Hc & H). injection H as <- <-.
      rewrite bool_decide_eq_true_2 by eauto. split; [done|].
      apply emitted_emit with pos; [|done].
      unfold lookupSymbol. simpl. done.
    + injection H as <- <-.
      rewrite bool_decide_eq_false_2 by (intros [? ?]; discriminate).
      split; [done|]. apply emitted_skip.
      unfold matched, lookupSymbol. simpl. rewrite L.
      no_entry.
Qed.

Lemma visitSpecs_spec parent specs w specs' w' :
  visitSpecs placeholderValue placeholderType table f parent specs w = Ok (specs', w') ->
  specs' = omap (specAfter table f) specs
  ∧ emits (flat_map (specSymbols parent) specs) w w'.
Proof.
  revert w specs' w'.
  induction specs as [|s rest IH]; intros w specs' w' H; simpl in H.
  - injection H as <- <-. split; [done|apply emitted_nil].
  - apply bind_Ok in H as ([s1 w1] & Hs & H).
    apply bind_Ok in H as ([rest1 w2] & Hrest & H).
    injection H as <- <-.
    apply visitSpec_spec in Hs as (-> & E1).
    apply IH in Hrest as (-> & E2).
    split; [|by eapply emitted_app].
    simpl. by destruct (specAfter table f s).
Qed.

Lemma visitDecl_spec d w r w' :
  visitDecl placeholderFunc placeholderValue placeholderType table f d w = Ok (r, w') ->
  r = declAfter table f d ∧ emits (declSymbols d) w w'.
Proof.
  destruct d as [a b|g|node]; simpl; intros H.
  - injection H as <- <-. split; [done|apply emitted_nil].
  - case_bool_decide as Ht.
    + apply bind_Ok in H as ([specs w1] & Hs & H).
      apply visitSpecs_spec in Hs as (-> & E).
      unfold pruneEmptyDecls in H. simpl in H.
      destruct (omap (specAfter table f) (Specs g)) as [|s0 specs0] eqn:Eo;
        simpl in H; injection H as <- <-; done.
    + injection H as <- <-. split; [done|apply emitted_nil].
  - apply bind_Ok in H as (k & Hk & H).
    unfold matched, lookupSymbol. simpl. rewrite Hk.
    destruct (table !! k) as [pos|] eqn:L.
    + apply bind_Ok in H as (c & Hc & H). injection H as <- <-.
      rewrite bool_decide_eq_true_2 by eauto. split; [done|].
      apply emitted_emit with pos; [|done].
      unfold lookupSymbol. simpl. by rewrite Hk.
    + injection H as <- <-.
      rewrite bool_decide_eq_false_2 by (intros [? ?]; discriminate).
      split; [done|]. apply emitted_skip.
      unfold matched, lookupSymbol. simpl. rewrite Hk, L.
      no_entry.
Qed.

Lemma visitDecls_spec decls w decls' w' :
  visitDecls placeholderFunc placeholderValue placeholderType table f decls w
    = Ok (decls', w') ->
  decls' = omap (declAfter table f) decls
  ∧ emits (flat_map declSymbols decls) w w'.
Proof.
  revert w decls' w'.
  induction decls as [|d rest IH]; intros w decls' w' H; simpl in H.
  - injection H as <- <-. split; [done|apply emitted_nil].
  - apply bind_Ok in H as ([d1 w1] & Hd & H).
    apply bind_Ok in H as ([rest1 w2] & Hrest & H).
    injection H as <- <-.
    apply visitDecl_spec in Hd as (-> & E1).
    apply IH in Hrest as (-> & E2).
    split; [|by eapply emitted_app].
    simpl. by destruct (declAfter table f d).
Qed.

(** The walk refines the symbol-by-symbol description: when [Prune] goes
    through the file, the declarations are those of [declAfter], the flag
    says whether a symbol matched, and the comments gained one placeholder
    per matched symbol. *)
Lemma pruneFile_spec f' changed :
  tableIsEmpty table = false ->
  pruneFile placeholderFunc placeholderValue placeholderType table f = Ok (f', changed) ->
  f' = withDecls f (omap (declAfter table f) (Decls f)) (Comments f')
  ∧ changed = existsb (matched table f) (symbols f)
  ∧ ∃ cs, Comments f' = Comments f ++ cs
          ∧ Forall2 placeholderOf (List.filter (matched table f) (symbols f)) cs.
Proof.
  unfold pruneFile. intros -> H.
  apply bind_Ok in H as ([decls w] & Hd & H). injection H as <- <-.
  apply visitDecls_spec in Hd as (-> & cs & E & P & F). simpl in *.
  split; [done|]. split; [done|]. by exists cs.
Qed.

(** With an empty table [Prune] returns at once. *)
Lemma pruneFile_empty :
  tableIsEmpty table = true ->
  pruneFile placeholderFunc placeholderValue placeholderType table f = Ok (f, false).
Proof. unfold pruneFile. by intros ->. Qed.

(** *** When the walk goes through, and when it panics *)

Lemma walkable_app s1 s2 : walks (s1 ++ s2) <-> walks s1 ∧ walks s2.
Proof.
  unfold walkable. split.
  - intros W. split; intros s Hs; apply W, in_app_iff; auto.
  - intros [W1 W2] s Hs. apply in_app_iff in Hs as [Hs|Hs]; auto.
Qed.

Lemma pruneNames_total parent names r w :
  walks (map (SymValue parent) names) ->
  ∃ out, pruneNames placeholderValue table f parent names r w = Ok out.
Proof.
  revert r w. induction names as [|name rest IH]; intros r w W; simpl.
  - eauto.
  - change (walks ([SymValue parent name] ++ map (SymValue parent) rest)) in W.
    apply walkable_app in W as [W1 W2].
    destruct (W1 (SymValue parent name)) as [_ R]; [by left|].
    unfold lookupSymbol in R. simpl in R.
    destruct (table !! _) as [pos|] eqn:L.
    + destruct (R pos eq_refl) as [c Hc]. simpl in Hc. rewrite Hc. simpl.
      destruct (IH (r - 1) (emit c w) W2) as [[[a b] c0] ->]. simpl. eauto.
    + destruct (IH r w W2) as [[[a b] c0] ->]. simpl. eauto.
Qed.

Lemma visitSpec_total parent s w :
  walks (specSymbols parent s) ->
  ∃ out, visitSpec placeholderValue placeholderType table f parent s w = Ok out.
Proof.
  destruct s as [l|v|t]; simpl; intros W.
  - eauto.
  - destruct (pruneNames_total parent (Names v) (Z.of_nat (length (Names v))) w W)
      as [[[a b] c] ->]. simpl. case_bool_decide; eauto.
  - destruct (W (SymType parent t)) as [_ R]; [by left|].
    unfold lookupSymbol in R. simpl in R.
    destruct (table !! _) as [pos|] eqn:L; [|eauto].
    destruct (R pos eq_refl) as [c Hc]. simpl in Hc. rewrite Hc. simpl. eauto.
Qed.

Lemma visitSpecs_total parent specs w :
  walks (flat_map (specSymbols parent) specs) ->
  ∃ out, visitSpecs placeholderValue placeholderType table f parent specs w = Ok out.
Proof.
  revert w. induction specs as [|s rest IH]; intros w W; simpl.
  - eauto.
  - simpl in W. apply walkable_app in W as [W1 W2].
    destruct (visitSpec_total parent s w W1) as [[a w1] ->]. simpl.
    destruct (IH w1 W2) as [[b w2] ->]. simpl. eauto.
Qed.

Lemma visitDecl_total d w :
  walks (declSymbols d) ->
  ∃ out, visitDecl placeholderFunc placeholderValue placeholderType table f d w = Ok out.
Proof.
  destruct d as [a b|g|node]; simpl; intros W.
  - eauto.
  - case_bool_decide; [|eauto].
    destruct (visitSpecs_total g (Specs g) w W) as [[a w1] ->]. simpl.
    destruct (pruneEmptyDecls _); eauto.
  - destruct (W (SymFunc node)) as [[k Hk] R]; [by left|].
    unfold lookupSymbol in R. simpl in R, Hk. rewrite Hk in *. simpl.
    destruct (table !! k) as [pos|] eqn:L; [|eauto].
    destruct (R pos eq_refl) as [c Hc]. simpl in Hc. rewrite Hc. simpl. eauto.
Qed.

Lemma visitDecls_total decls w :
  walks (flat_map declSymbols decls) ->
  ∃ out, visitDecls placeholderFunc placeholderValue placeholderType table f decls w
           = Ok out.
Proof.
  revert w. induction decls as [|d rest IH]; intros w W; simpl.
  - eauto.
  - simpl in W. apply walkable_app in W as [W1 W2].
    destruct (visitDecl_total d w W1) as [[a w1] ->]. simpl.
    destruct (IH w1 W2) as [[b w2] ->]. simpl. eauto.
Qed.

Lemma pruneFile_total :
  walks (symbols f) ->
  ∃ f' changed,
    pruneFile placeholderFunc placeholderValue placeholderType table f = Ok (f', changed).
Proof.
  intros W. unfold pruneFile. destruct (tableIsEmpty table); [eauto|].
  destruct (visitDecls_total (Decls f) (mkWalk (Comments f) false) W) as [[a w] ->].
  simpl. eauto.
Qed.

(** A symbol without a key is a method, and visiting its declaration
    panics. *)
Lemma visitDecl_panics d s w :
  In s (declSymbols d) -> panics (key f (symbolNode s)) = true ->
  panics (visitDecl placeholderFunc placeholderValue placeholderType table f d w) = true.
Proof.
  destruct d as [a b|g|node]; simpl.
  - done.
  - case_bool_decide; [|done]. intros Hin Hp. exfalso.
    apply in_flat_map in Hin as (sp & _ & Hin).
    destruct sp as [l|v|t]; simpl in Hin.
    + done.
    + apply in_map_iff in Hin as (n & <- & _). discriminate.
    + destruct Hin as [<-|[]]. discriminate.
  - intros [<-|[]]. simpl. by destruct (funcName node).
Qed.

Lemma visitDecls_panics decls s w :
  In s (flat_map declSymbols decls) -> panics (key f (symbolNode s)) = true ->
  panics (visitDecls placeholderFunc placeholderValue placeholderType table f decls w)
    = true.
Proof.
  revert w. induction decls as [|d rest IH]; intros w Hin Hp; simpl in *.
  - done.
  - apply in_app_iff in Hin as [Hin|Hin].
    + pose proof (visitDecl_panics d s w Hin Hp) as Hd.
      by destruct (visitDecl _ _ _ _ _ _ _).
    + destruct (visitDecl _ _ _ _ _ _ _) as [[d1 w1]|]; [|done]. simpl.
      specialize (IH w1 Hin Hp).
      by destruct (visitDecls _ _ _ _ _ _ _) as [[? ?]|].
Qed.

Lemma pruneFile_panics s :
  tableIsEmpty table = false ->
  In s (symbols f) -> panics (key f (symbolNode s)) = true ->
  panics (pruneFile placeholderFunc placeholderValue placeholderType table f) = true.
Proof.
  intros E Hin Hp. unfold pruneFile. rewrite E.
  pose proof (visitDecls_panics (Decls f) s (mkWalk (Comments f) false) Hin Hp) as H.
  by destruct (visitDecls _ _ _ _ _ _ _) as [[? ?]|].
Qed.
End TraversalFacts.

(** * Facts about [Collect] *)

Section CollectFacts.
Variable f : File.

Lemma foldl_Panic {A B} (g : B -> A -> result A) (p : panic) (l : list B) :
  foldl (λ acc x, t ← acc; g x t) (Panic p) l = Panic p.
Proof. induction l as [|x l IH]; simpl; auto. Qed.

Lemma enter_app t s1 s2 : enter f t (s1 ++ s2) = enter f (enter f t s1) s2.
Proof. unfold enter. apply foldl_app. Qed.

Lemma collectNames_spec parent names t :
  foldl (λ acc name, t ← acc; k ← key f (NIdent name); Ok (<[k := NamePos name]> t))
        (Ok t) names
  = Ok (enter f t (map (SymValue parent) names)).
Proof.
  revert t. induction names as [|name rest IH]; intros t; simpl; [done|].
  apply IH.
Qed.

Lemma collectSpec_spec parent s t :
  collectSpec f s t = Ok (enter f t (specSymbols parent s)).
Proof.
  destruct s as [l|v|ts]; simpl; [done| |done].
  apply collectNames_spec.
Qed.

Lemma collectSpecs_spec parent specs t :
  foldl (λ acc s, t ← acc; collectSpec f s t) (Ok t) specs
  = Ok (enter f t (flat_map (specSymbols parent) specs)).
Proof.
  revert t. induction specs as [|s rest IH]; intros t; simpl; [done|].
  rewrite (collectSpec_spec parent), enter_app. apply IH.
Qed.

Lemma collectDecl_spec d t :
  forallb (λ s, negb (panics (key f (symbolNode s)))) (declSymbols d) = true ->
  collectDecl f d t = Ok (enter f t (declSymbols d)).
Proof.
  destruct d as [a b|g|node]; simpl; [done| |].
  - intros _. case_bool_decide; [|done]. apply collectSpecs_spec.
  - unfold enter, symbolKey. simpl. by destruct (funcName node).
Qed.

Lemma collectDecl_panics d s t :
  In s (declSymbols d) -> panics (key f (symbolNode s)) = true ->
  panics (collectDecl f d t) = true.
Proof.
  destruct d as [a b|g|node]; simpl.
  - done.
  - case_bool_decide; [|done]. intros Hin Hp. exfalso.
    apply in_flat_map in Hin as (sp & _ & Hin).
    destruct sp as [l|v|ts]; simpl in Hin.
    + done.
    + apply in_map_iff in Hin as (n & <- & _). discriminate.
    + destruct Hin as [<-|[]]. discriminate.
  - intros [<-|[]]. simpl. by destruct (funcName node).
Qed.

Lemma collectDecls_spec decls t :
  forallb (λ s, negb (panics (key f (symbolNode s)))) (flat_map declSymbols decls) = true ->
  foldl (λ acc d, t ← acc; collectDecl f d t) (Ok t) decls
  = Ok (enter f t (flat_map declSymbols decls)).
Proof.
  revert t. induction decls as [|d rest IH]; intros t; simpl; [done|].
  rewrite forallb_app. intros [H1 H2]%andb_true_iff.
  rewrite collectDecl_spec by done. rewrite enter_app. by apply IH.
Qed.

Lemma collectDecls_panics decls s acc :
  In s (flat_map declSymbols decls) -> panics (key f (symbolNode s)) = true ->
  panics (foldl (λ acc d, t ← acc; collectDecl f d t) acc decls) = true.
Proof.
  revert acc. induction decls as [|d rest IH]; intros acc Hin Hp; simpl in *; [done|].
  destruct acc as [t|p]; simpl.
  - apply in_app_iff in Hin as [Hin|Hin].
    + pose proof (collectDecl_panics d s t Hin Hp) as Hd.
      destruct (collectDecl f d t); [done|]. by rewrite foldl_Panic.
    + by apply IH.
  - by rewrite foldl_Panic.
Qed.

(** On a file all of whose receivers are supported [Collect] enters every
    top-level symbol under its key and reports no change. *)
Lemma collectFile_spec table :
  receiversSupported f = true ->
  collectFile table f = Ok (enter f table (symbols f), false).
Proof.
  intros H. unfold collectFile. by rewrite collectDecls_spec.
Qed.

Lemma collectFile_panics table s :
  In s (symbols f) -> panics (key f (symbolNode s)) = true ->
  panics (collectFile table f) = true.
Proof.
  intros Hin Hp. unfold collectFile.
  pose proof (collectDecls_panics (Decls f) s (Ok table) Hin Hp) as H.
  by destruct (foldl _ _ _).
Qed.
End CollectFacts.

(** * Symbol keys of methods *)

Lemma funcName_method d T star :
  receiverType d = Some (EIdent T) ∨ receiverType d = Some (StarExpr star (EIdent T)) ->
  funcName d = Ok (Name T +:+ "." +:+ Name (FuncDecl_Name d)).
Proof.
  unfold receiverType, funcName.
  destruct (Recv d) as [fl|]; [|intros [?|?]; discriminate].
  destruct (FList fl) as [|fld rest]; [intros [?|?]; discriminate|].
  intros [[= ->]|[= ->]]; reflexivity.
Qed.

Lemma funcName_unsupported d e :
  receiverType d = Some e -> identOrPointerToIdent e = false ->
  funcName d = Panic TypeAssertion.
Proof.
  unfold receiverType, funcName.
  destruct (Recv d) as [fl|]; [|discriminate].
  destruct (FList fl) as [|fld rest]; [discriminate|].
  intros [= ->] H. destruct e as [id|star x|x i|lp x|x sel|src]; try done.
  destruct x; done.
Qed.

Lemma symbols_func f d : In (DFunc d) (Decls f) -> In (SymFunc d) (symbols f).
Proof.
  intros H. apply in_flat_map. exists (DFunc d). split; [done|]. by left.
Qed.

Lemma enter_keeps f syms t k :
  is_Some (t !! k) -> is_Some (enter f t syms !! k).
Proof.
  revert t. induction syms as [|s rest IH]; intros t H; simpl; [done|].
  apply IH. destruct (decide (symbolKey f s = k)) as [<-|Hne].
  - rewrite lookup_insert_eq. eauto.
  - by rewrite lookup_insert_ne.
Qed.

Lemma enter_has f syms t s :
  In s syms -> is_Some (enter f t syms !! symbolKey f s).
Proof.
  revert t. induction syms as [|s0 rest IH]; intros t Hin; simpl in *; [done|].
  destruct Hin as [->|Hin]; [|by apply IH].
  apply enter_keeps. rewrite lookup_insert_eq. eauto.
Qed.

(** C7: for a method declared on [T] or on [*T] the key computed by
    [key] is "pkg.T.M", the same in both cases; [Collect] enters the
    declaration under that key, and [Prune] looks it up under that key and
    deletes the declaration when the table has it. *)
Theorem method_key_unwraps_pointer_receiver
    (f : File) (d : FuncDecl) (T : Ident) (star : Pos) :
  receiverType d = Some (EIdent T) ∨ receiverType d = Some (StarExpr star (EIdent T)) ->
  let k := Name (File_Name f) +:+ "." +:+ Name T +:+ "." +:+ Name (FuncDecl_Name d) in
  key f (NFuncDecl d) = Ok k
  ∧ (∀ sf, In (DFunc d) (Decls f) -> receiversSupported f = true ->
       ∃ sf', SymbolFilter.Collect sf f = Ok (sf', false)
              ∧ is_Some (SymbolFilter.WillPrune sf' !! k))
  ∧ (∀ t, collectDecl f (DFunc d) t = Ok (<[k := FuncDecl_Pos d]> t))
  ∧ (∀ phF phV phT table pos w, table !! k = Some pos ->
       visitDecl phF phV phT table f (DFunc d) w
       = (c ← phF d (FuncDecl_Pos d) pos; Ok (None, emit c w))).
Proof.
  intros Hr k.
  assert (Hk : key f (NFuncDecl d) = Ok k).
  { simpl. by rewrite (funcName_method d T star Hr). }
  split; [done|]. split; [|split].
  - intros sf Hin Hs. unfold SymbolFilter.Collect.
    rewrite collectFile_spec by done. simpl. eexists. split; [done|]. simpl.
    replace k with (symbolKey f (SymFunc d)).
    + by apply enter_has, symbols_func.
    + unfold symbolKey. simpl symbolNode. by rewrite Hk.
  - intros t. unfold collectDecl. by rewrite Hk.
  - intros phF phV phT table pos w L. unfold visitDecl. rewrite Hk.
    change (match table !! k with
            | Some pos => c ← phF d (FuncDecl_Pos d) pos; Ok (None, emit c w)
            | None => Ok (Some (DFunc d), w)
            end = (c ← phF d (FuncDecl_Pos d) pos; Ok (None, emit c w))).
    by rewrite L.
Qed.

Lemma method_key_unwraps_pointer_receiver_witness :
  key methodFile (NFuncDecl valueMethod) = Ok "x.T.M"
  ∧ key methodFile (NFuncDecl pointerMethod) = Ok "x.T.M".
Proof.
  split.
  - exact (proj1 (method_key_unwraps_pointer_receiver
                    methodFile valueMethod (ident 30 "T") 0 (or_introl eq_refl))).
  - exact (proj1 (method_key_unwraps_pointer_receiver
                    methodFile pointerMethod (ident 49 "T") 48 (or_intror eq_refl))).
Defined.

(** * Unsupported receivers *)

(** C9 as stated fails for [Prune]: with an empty table it returns before
    any key is computed, also on a file with a generic receiver. *)
Lemma prune_empty_table_returns_on_generic_receiver :
  In (DFunc genericMethod) (Decls genericFile)
  ∧ (∃ e, receiverType genericMethod = Some e ∧ identOrPointerToIdent e = false)
  ∧ SymbolFilter.Prune printStub (filterOf []) genericFile = Ok (genericFile, false)
  ∧ augmenter.Prune (augmenter.mk ∅) exampleFset genericFile = Ok (genericFile, false).
Proof.
  split; [by left|]. split; [eexists; split; reflexivity|].
  split; reflexivity.
Qed.

(** C9, amended: a top-level method whose receiver type is neither an
    identifier nor a pointer to an identifier makes [Collect] panic, and
    makes [Prune] panic whenever the symbol table is not empty. *)
Theorem unsupported_receiver_panics (f : File) (d : FuncDecl) (e : Expr) :
  In (DFunc d) (Decls f) ->
  receiverType d = Some e ->
  identOrPointerToIdent e = false ->
  (∀ sf, panics (SymbolFilter.Collect sf f) = true)
  ∧ (∀ a fset, panics (augmenter.Collect a fset f) = true)
  ∧ (∀ format_Node sf, SymbolFilter.IsEmpty sf = false ->
       panics (SymbolFilter.Prune format_Node sf f) = true)
  ∧ (∀ a fset, augmenter.IsEmpty a = false ->
       panics (augmenter.Prune a fset f) = true).
Proof.
  intros Hin Hr He.
  pose proof (symbols_func f d Hin) as Hs.
  assert (Hp : panics (key f (symbolNode (SymFunc d))) = true).
  { simpl. by rewrite (funcName_unsupported d e Hr He). }
  repeat split.
  - intros sf. unfold SymbolFilter.Collect.
    pose proof (collectFile_panics f (SymbolFilter.WillPrune sf) _ Hs Hp) as H.
    by destruct (collectFile _ _) as [[? ?]|].
  - intros a fset. unfold augmenter.Collect.
    pose proof (collectFile_panics f (augmenter.Replacements a) _ Hs Hp) as H.
    by destruct (collectFile _ _) as [[? ?]|].
  - intros fmt sf Hne. by apply pruneFile_panics with (SymFunc d).
  - intros a fset Hne. by apply pruneFile_panics with (SymFunc d).
Qed.

Lemma unsupported_receiver_panics_witness :
  panics (SymbolFilter.Collect (filterOf []) genericFile) = true
  ∧ panics (SymbolFilter.Prune printStub (filterOf ["x.Func"]) genericFile) = true.
Proof.
  pose proof (unsupported_receiver_panics genericFile genericMethod
                (IndexExpr (EIdent (ident 18 "T")) (EIdent (ident 20 "P")))
                (or_introl eq_refl) eq_refl eq_refl) as (H1 & _ & H3 & _).
  split; [apply H1|].
  apply H3. reflexivity.
Defined.

(** * Files no symbol of which is in the table *)

Lemma matched_false_lookup table f s :
  matched table f s = false -> lookupSymbol table f s = None.
Proof.
  unfold matched. intros H%bool_decide_eq_false.
  destruct (lookupSymbol table f s); [|done]. exfalso. eauto.
Qed.

Lemma untouched_walkable phF phV phT table f :
  receiversSupported f = true ->
  existsb (matched table f) (symbols f) = false ->
  walkable phF phV phT table f (symbols f).
Proof.
  unfold receiversSupported. intros Hs Hm s Hin. split.
  - rewrite forallb_forall in Hs. specialize (Hs s Hin).
    destruct (key f (symbolNode s)); [eauto|done].
  - intros pos L. exfalso.
    assert (M : matched table f s = false).
    { destruct (matched table f s) eqn:E; [|done].
      assert (existsb (matched table f) (symbols f) = true); [|congruence].
      apply existsb_exists. eauto. }
    apply matched_false_lookup in M. congruence.
Qed.

Lemma filter_none {A} (p : A -> bool) (l : list A) :
  existsb p l = false -> List.filter p l = [].
Proof.
  induction l as [|x l IH]; simpl; [done|].
  destruct (p x); simpl; [done|auto].
Qed.

Lemma pruneFile_untouched phF phV phT table f :
  receiversSupported f = true ->
  existsb (matched table f) (symbols f) = false ->
  ∃ f', pruneFile phF phV phT table f = Ok (f', false) ∧ Comments f' = Comments f.
Proof.
  intros Hs Hm.
  destruct (tableIsEmpty table) eqn:E.
  { exists f. split; [by apply pruneFile_empty|done]. }
  destruct (pruneFile_total phF phV phT table f (untouched_walkable _ _ _ _ _ Hs Hm))
    as (f' & changed & H).
  destruct (pruneFile_spec _ _ _ _ _ _ _ E H) as (_ & -> & cs & Hc & F).
  rewrite filter_none in F by done. inversion F; subst.
  exists f'. rewrite Hm in H. split; [done|]. by rewrite Hc, app_nil_r.
Qed.

(** ** Symbolic links *)

Section LinkFacts.
Context `{Platform}.

(** A path that is not a link leads to itself. *)
Lemma follow_not_link n d p :
  (∀ text, entries d !! p ≠ Some (Symlink text)) -> follow n d p = Some p.
Proof.
  intros Hn. destruct n; simpl;
    destruct (entries d !! p) as [[c|text]|] eqn:E; try done; by destruct (Hn text).
Qed.

(** Where a path leads there is no link. *)
Lemma follow_end n d p q :
  follow n d p = Some q -> ∀ text, entries d !! q ≠ Some (Symlink text).
Proof.
  revert p. induction n as [|n IH]; intros p; simpl;
    destruct (entries d !! p) as [[c|text]|] eqn:E; try done;
    try (intros [= <-] text'; by rewrite E); eauto.
Qed.

(** More links may always be allowed. *)
Lemma follow_more n m d p q :
  (n <= m)%nat -> follow n d p = Some q -> follow m d p = Some q.
Proof.
  revert m p. induction n as [|n IH]; intros m p Hle; simpl.
  - destruct (entries d !! p) as [[c|text]|] eqn:E; try done;
      intros [= <-]; apply follow_not_link; intros text'; by rewrite E.
  - destruct m as [|m]; [lia|]. simpl.
    destruct (entries d !! p) as [[c|text]|]; try done. apply IH. lia.
Qed.

(** Writing the file a path leads to does not change where it leads. *)
Lemma follow_writeFile n d p q content :
  follow n d p = Some q -> follow n (writeFile d q content) p = Some q.
Proof.
  revert p. induction n as [|n IH]; intros p Hf.
  - pose proof (follow_end _ _ _ _ Hf) as Hq. simpl in *.
    destruct (entries d !! p) as [[c|text]|] eqn:E; try done;
      injection Hf as <-; by rewrite lookup_insert_eq.
  - pose proof (follow_end _ _ _ _ Hf) as Hq. simpl in *.
    destruct (decide (p = q)) as [->|Hne].
    + rewrite lookup_insert_eq. done.
    + rewrite lookup_insert_ne by done.
      destruct (entries d !! p) as [[c|text]|] eqn:E; try done. by apply IH.
Qed.

(** A new entry at a path where there was nothing does not change where a
    path leads that led to a file. *)
Lemma follow_new_entry n d p q w e :
  entries d !! w = None ->
  follow n d p = Some q ->
  is_Some (entries d !! q) ->
  follow n (mkDisk (<[w := e]> (entries d)) (denied d) (unwritable d)) p = Some q.
Proof.
  intros Hw. revert p. induction n as [|n IH]; intros p Hf Hq; simpl in *.
  - destruct (decide (p = w)) as [->|Hne].
    + rewrite Hw in Hf. injection Hf as <-. rewrite Hw in Hq. by destruct Hq.
    + rewrite lookup_insert_ne by done.
      destruct (entries d !! p) as [[c|text]|]; done.
  - destruct (decide (p = w)) as [->|Hne].
    + rewrite Hw in Hf. injection Hf as <-. rewrite Hw in Hq. by destruct Hq.
    + rewrite lookup_insert_ne by done.
      destruct (entries d !! p) as [[c|text]|]; try done. by apply IH.
Qed.

(** What was written to the file a path leads to is read back at the
    path. *)
Lemma readFile_written d p q content :
  follow maxLinks d p = Some q -> readFile (writeFile d q content) p = Some content.
Proof.
  intros Hf. unfold readFile, readWithin.
  rewrite (follow_writeFile _ _ _ _ content Hf). simpl. by rewrite lookup_insert_eq.
Qed.

(** A link with an absolute text, made where there was nothing, reads as
    the file its text names, when that file is reached with a link to
    spare. *)
Lemma readFile_new_link d w target n src :
  entries d !! w = None ->
  IsAbs target = true ->
  (n < maxLinks)%nat ->
  readWithin n d target = Some src ->
  readFile (mkDisk (<[w := Symlink target]> (entries d)) (denied d) (unwritable d)) w
  = Some src.
Proof.
  intros Hw Habs Hn Hr. unfold readFile, readWithin in *.
  destruct (follow n d target) as [q|] eqn:Hf; [|done].
  destruct (entries d !! q) as [[c|?]|] eqn:Eq; try done. injection Hr as ->.
  destruct maxLinks as [|m]; [lia|]. simpl. rewrite lookup_insert_eq.
  unfold linkTarget. rewrite Habs.
  assert (Hm : follow m d target = Some q) by (apply (follow_more n); [lia|done]).
  rewrite (follow_new_entry m d target q w (Symlink target) Hw Hm) by (by rewrite Eq).
  simpl. destruct (decide (q = w)) as [->|Hne]; [congruence|].
  by rewrite lookup_insert_ne, Eq.
Qed.
End LinkFacts.

(** C6 as stated fails twice.  With a table that is not empty and matches
    nothing, [Prune] panics on a file with a generic receiver instead of
    reporting that nothing changed.  And when nothing changed and the
    source comes from [http.Dir] with a relative root, [processSource]
    returns no error but the link it leaves at the destination is read
    from the destination's directory and leads nowhere: the output is not
    the input. *)
Lemma prune_noop_not_as_specified :
  (existsb (matched (tableOf ["x.Func"]) genericFile) (symbols genericFile) = false
   ∧ SymbolFilter.IsEmpty (filterOf ["x.Func"]) = false
   ∧ SymbolFilter.Prune printStub (filterOf ["x.Func"]) genericFile
     = Panic TypeAssertion)
  ∧ (existsb (matched (tableOf ["x.Missing"]) funcFile) (symbols funcFile) = false
     ∧ Open joinPath sourceDisk (Dir "src") "a.go" = Some "package x"
     ∧ ∃ d', processSource (λ _ _, Some funcFile) (λ _, None) joinPath id exampleFset
               sourceDisk (Dir "src") "a.go" "out/a.go"
               (λ _, SymbolFilter.Prune printStub (filterOf ["x.Missing"]))
             = Ok (None, d')
             ∧ entries d' !! "out/a.go" = Some (Symlink "src/a.go")
             ∧ follow maxLinks d' "out/a.go" = Some "out/src/a.go"
             ∧ readFile d' "out/a.go" = None).
Proof.
  split; [repeat split; reflexivity|].
  split; [reflexivity|]. split; [reflexivity|].
  eexists. split; [reflexivity|]. repeat split; reflexivity.
Qed.

(** C6, amended: with an empty table [Prune] returns the file as it is
    and false without visiting any declaration, whatever the file; on a
    file whose method receivers are identifiers or pointers to identifiers,
    a table that matches no top-level symbol gives false and no new
    comment.  [processSource] then takes the copy path, and when that
    returns no error the bytes read at the destination are the source
    bytes: always for a source served from memory, and for a source on the
    real file system when the text of the link, [Join root loadPath], is
    an absolute path at which the source bytes are read with a link to
    spare. *)
Theorem prune_noop_fast_path `{Platform}
    (ParseFile : string -> string -> option File) (formatFile : File -> option string)
    (Join : string -> string -> string) (Base : string -> string)
    (format_Node : Node -> option string) (sf : SymbolFilter.t) (fset : token_FileSet)
    (d : disk) (loadFS : FileSystem) (loadPath writePath src : string) (f : File) :
  Open Join d loadFS loadPath = Some src ->
  ParseFile (Base writePath) src = Some f ->
  SymbolFilter.IsEmpty sf = true
  ∨ (receiversSupported f = true
     ∧ existsb (matched (SymbolFilter.WillPrune sf) f) (symbols f) = false) ->
  (∃ f', SymbolFilter.Prune format_Node sf f = Ok (f', false)
         ∧ Comments f' = Comments f
         ∧ (SymbolFilter.IsEmpty sf = true -> f' = f))
  ∧ processSource ParseFile formatFile Join Base fset d loadFS loadPath writePath
      (λ _, SymbolFilter.Prune format_Node sf)
    = Ok (copyUnmodified Join d loadFS loadPath writePath)
  ∧ ∀ d', copyUnmodified Join d loadFS loadPath writePath = (None, d') ->
          match loadFS with
          | Virtual _ => readFile d' writePath = Some src
          | Dir root =>
            entries d' !! writePath = Some (Symlink (Join root loadPath))
            ∧ (IsAbs (Join root loadPath) = true ->
               (∃ n, (n < maxLinks)%nat
                     ∧ readWithin n d (Join root loadPath) = Some src) ->
               readFile d' writePath = Some src)
          end.
Proof.
  intros Ho Hp Hcase.
  assert (Hprune : ∃ f', SymbolFilter.Prune format_Node sf f = Ok (f', false)
                         ∧ Comments f' = Comments f
                         ∧ (SymbolFilter.IsEmpty sf = true -> f' = f)).
  { destruct (SymbolFilter.IsEmpty sf) eqn:E.
    - exists f. split; [by apply pruneFile_empty|done].
    - destruct Hcase as [?|[Hs Hm]]; [done|].
      destruct (pruneFile_untouched
                  (λ node o p, SymbolFilter.placeholder format_Node sf
                                 (SymbolFilter.funcStub node) o p)
                  (λ parent name o p, SymbolFilter.placeholder format_Node sf
                                        (SymbolFilter.valueStub parent name) o p)
                  (λ parent node o p, SymbolFilter.placeholder format_Node sf
                                        (SymbolFilter.typeStub parent node) o p)
                  _ f Hs Hm) as (f' & H' & Hc).
      exists f'. done. }
  split; [done|]. split.
  - destruct Hprune as (f' & H' & _).
    unfold processSource, loadAST. rewrite Ho, Hp, H'. done.
  - intros d'. unfold copyUnmodified.
    destruct loadFS as [root|files].
    + unfold os_Symlink. destruct (entries d !! writePath) eqn:Ew; [discriminate|].
      case_bool_decide; [discriminate|].
      intros [= <-]. simpl. split; [by rewrite lookup_insert_eq|].
      intros Habs (n & Hn & Hr). by apply readFile_new_link with n.
    + rewrite Ho. unfold os_Create.
      destruct (follow maxLinks d writePath) as [to|] eqn:Hf; [|discriminate].
      case_bool_decide; [discriminate|].
      assert (Hto : follow maxLinks (writeFile d to "") writePath = Some to)
        by by apply follow_writeFile.
      case_bool_decide as Hu.
      * discriminate.
      * intros [= <-].
        replace (writeFile (writeFile d to "") to src) with (writeFile d to src)
          by (unfold writeFile; simpl; by rewrite insert_insert_eq).
        by apply readFile_written.
Qed.

Lemma prune_noop_fast_path_witness :
  (∃ f', SymbolFilter.Prune printStub (filterOf ["x.Missing"]) funcFile = Ok (f', false)
         ∧ Comments f' = Comments funcFile
         ∧ (SymbolFilter.IsEmpty (filterOf ["x.Missing"]) = true -> f' = funcFile))
  ∧ ∀ d', copyUnmodified joinPath rootedDisk (Dir "/go/src") "a.go" "out/a.go"
          = (None, d') ->
          readFile d' "out/a.go" = Some "package x".
Proof.
  assert (Hopen : Open joinPath rootedDisk (Dir "/go/src") "a.go" = Some "package x")
    by reflexivity.
  destruct (prune_noop_fast_path
              (λ _ _, Some funcFile) (λ _, None) joinPath id
              printStub (filterOf ["x.Missing"]) exampleFset
              rootedDisk (Dir "/go/src") "a.go" "out/a.go"
              "package x" funcFile Hopen eq_refl
              (or_intror (conj eq_refl eq_refl))) as (Hprune & _ & Hcopy).
  split; [exact Hprune|].
  intros d' Hc. destruct (Hcopy d' Hc) as [_ Hread]. apply Hread.
  - reflexivity.
  - exists 0%nat. split; [simpl; lia|reflexivity].
Defined.

(** * What pruning leaves alone, and what it removes *)

Section Outcome.
Variable table : gmap string Pos.
Variable f : File.

Lemma specAfter_imports (specs : list Spec) :
  omap specImport (omap (specAfter table f) specs) = omap specImport specs.
Proof.
  induction specs as [|s rest IH]; csimpl; [done|].
  destruct s as [l|v|t]; csimpl.
  - by rewrite IH.
  - destruct (forallb _ _); csimpl; done.
  - destruct (typeMatched _ _ _); csimpl; done.
Qed.

Lemma declAfter_imports (decls : list Decl) :
  flat_map declImports (omap (declAfter table f) decls) = flat_map declImports decls.
Proof.
  induction decls as [|d rest IH]; csimpl; [done|].
  destruct d as [a b|g|node]; csimpl.
  - done.
  - case_bool_decide; csimpl; [|by rewrite IH].
    pose proof (specAfter_imports (Specs g)) as Hi.
    destruct (omap (specAfter table f) (Specs g)) as [|s0 specs0]; csimpl in *.
    + by rewrite <- Hi.
    + by rewrite IH, Hi.
  - destruct (matched _ _ _); csimpl; by rewrite IH.
Qed.

Lemma declAfter_import_groups (decls : list Decl) :
  List.filter isImportDecl (omap (declAfter table f) decls)
  = List.filter isImportDecl decls.
Proof.
  induction decls as [|d rest IH]; csimpl; [done|].
  destruct d as [a b|g|node]; csimpl.
  - done.
  - case_bool_decide as Ht; csimpl.
    + rewrite bool_decide_eq_false_2 by done.
      destruct (omap (specAfter table f) (Specs g)) as [|s0 specs0]; csimpl; [done|].
      by rewrite bool_decide_eq_false_2.
    + assert (Tok g = IMPORT) as Hi by (by destruct (decide (Tok g = IMPORT))).
      rewrite bool_decide_eq_true_2 by done. by rewrite IH.
  - destruct (matched _ _ _); csimpl; done.
Qed.

Lemma declAfter_groups_nonempty (decls : list Decl) g :
  In (DGen g) (omap (declAfter table f) decls) -> Tok g ≠ IMPORT -> Specs g ≠ [].
Proof.
  intros Hin Ht. apply list_elem_of_In, list_elem_of_omap in Hin as (d & _ & Hd).
  destruct d as [a b|g0|node]; csimpl in Hd.
  - discriminate.
  - case_bool_decide as Ht0.
    + destruct (omap (specAfter table f) (Specs g0)) as [|s0 specs0]; [discriminate|].
      injection Hd as <-. done.
    + injection Hd as <-. done.
  - destruct (matched _ _ _); discriminate.
Qed.

Lemma specAfter_all_matched (specs : list Spec) :
  forallb (specFullyMatched table f) specs = true ->
  omap (specAfter table f) specs = [].
Proof.
  induction specs as [|s rest IH]; csimpl; [done|].
  intros [Hs Hr]%andb_true_iff.
  destruct s as [l|v|t]; csimpl in *; [done| |]; rewrite Hs; auto.
Qed.

Lemma filter_matched_names parent names :
  List.filter (matched table f) (map (SymValue parent) names)
  = map (SymValue parent) (List.filter (nameMatched table f) names).
Proof. apply filter_map_swap. Qed.

Lemma filter_all {A} (p : A -> bool) (l : list A) :
  forallb p l = true -> List.filter p l = l.
Proof.
  induction l as [|x l IH]; csimpl; [done|].
  intros [-> Hr]%andb_true_iff. by rewrite IH.
Qed.

Lemma specSymbols_all_matched parent specs :
  forallb (specFullyMatched table f) specs = true ->
  forallb (matched table f) (flat_map (specSymbols parent) specs) = true.
Proof.
  induction specs as [|s rest IH]; csimpl; [done|].
  intros [Hs Hr]%andb_true_iff. rewrite forallb_app, IH by done.
  destruct s as [l|v|t]; csimpl in *; [done| |by rewrite matched_type, Hs].
  rewrite andb_true_r, forallb_forall in *.
  intros s [n [<- Hn]]%in_map_iff. rewrite matched_value. auto.
Qed.
End Outcome.

Lemma Forall2_filter_middle {A B} (P : A -> B -> Prop) (p : A -> bool)
    (a b c : list A) (cs : list B) :
  Forall2 P (List.filter p (a ++ b ++ c)) cs ->
  ∃ c1 c2 c3, cs = c1 ++ c2 ++ c3 ∧ Forall2 P (List.filter p b) c2.
Proof.
  rewrite !List.filter_app.
  intros (c1 & c23 & _ & (c2 & c3 & F2 & _ & ->)%Forall2_app_inv_l & ->)%Forall2_app_inv_l.
  by exists c1, c2, c3.
Qed.

(** [SymbolFilter.Prune] and [augmenter.Prune] in terms of the
    symbol-by-symbol description. *)
Lemma SymbolFilter_Prune_spec format_Node sf f f' changed :
  SymbolFilter.IsEmpty sf = false ->
  SymbolFilter.Prune format_Node sf f = Ok (f', changed) ->
  let table := SymbolFilter.WillPrune sf in
  f' = withDecls f (omap (declAfter table f) (Decls f)) (Comments f')
  ∧ changed = existsb (matched table f) (symbols f)
  ∧ ∃ cs, Comments f' = Comments f ++ cs
          ∧ Forall2 (SymbolFilter.placeholderFor format_Node sf f)
                    (List.filter (matched table f) (symbols f)) cs.
Proof.
  intros E H table.
  destruct (pruneFile_spec _ _ _ _ _ _ _ E H) as (Hf & Hc & cs & Hcs & F).
  split; [done|]. split; [done|]. exists cs. split; [done|].
  eapply Forall2_impl; [exact F|].
  intros s c (pos & L & R). exists pos. split; [done|]. by destruct s.
Qed.

Lemma augmenter_Prune_spec a fset f f' changed :
  augmenter.IsEmpty a = false ->
  augmenter.Prune a fset f = Ok (f', changed) ->
  let table := augmenter.Replacements a in
  f' = withDecls f (omap (declAfter table f) (Decls f)) (Comments f')
  ∧ changed = existsb (matched table f) (symbols f)
  ∧ ∃ cs, Comments f' = Comments f ++ cs
          ∧ Forall2 (augmenter.placeholderFor a fset f)
                    (List.filter (matched table f) (symbols f)) cs.
Proof.
  intros E H table.
  destruct (pruneFile_spec _ _ _ _ _ _ _ E H) as (Hf & Hc & cs & Hcs & F).
  split; [done|]. split; [done|]. exists cs. split; [done|].
  eapply Forall2_impl; [exact F|].
  intros s c (pos & L & R). destruct s as [node|parent name|parent node]; simpl in R.
  - apply bind_Ok in R as (name & Hn & [= <-]). by exists pos, name.
  - injection R as <-. by exists pos, (Name name).
  - injection R as <-. by exists pos, (Name (TypeSpec_Name node)).
Qed.

Lemma Forall2_Forall_right {A B} (R : A -> B -> Prop) (l : list A) (k : list B) :
  Forall2 R l k -> Forall (λ y, ∃ x, In x l ∧ R x y) k.
Proof.
  induction 1 as [|x y l k Hxy _ IH]; constructor.
  - exists x. split; [by left|done].
  - eapply Forall_impl; [exact IH|]. intros y' (x' & Hin & Hr). exists x'.
    split; [by right|done].
Qed.

(** [Prune] goes through a file whose receivers are supported, provided
    the stubs of its symbols can be printed. *)
Lemma SymbolFilter_Prune_total format_Node sf f :
  receiversSupported f = true ->
  (∀ s, In s (symbols f) -> is_Some (format_Node (SymbolFilter.stub s))) ->
  ∃ f' changed, SymbolFilter.Prune format_Node sf f = Ok (f', changed).
Proof.
  intros Hs Hfmt. apply pruneFile_total. intros s Hin. split.
  - unfold receiversSupported in Hs. rewrite forallb_forall in Hs.
    specialize (Hs s Hin). destruct (key f (symbolNode s)); [eauto|done].
  - intros pos _. destruct (Hfmt s Hin) as [printed Hp].
    destruct s; simpl; unfold SymbolFilter.placeholder; simpl in Hp; rewrite Hp; eauto.
Qed.

Lemma augmenter_Prune_total a fset f :
  receiversSupported f = true ->
  ∃ f' changed, augmenter.Prune a fset f = Ok (f', changed).
Proof.
  intros Hs. apply pruneFile_total. intros s Hin.
  unfold receiversSupported in Hs. rewrite forallb_forall in Hs.
  specialize (Hs s Hin). split.
  - destruct (key f (symbolNode s)); [eauto|done].
  - intros pos _. destruct s as [node|parent name|parent node]; simpl; eauto.
    simpl in Hs. destruct (funcName node); simpl; [eauto|done].
Qed.

Lemma printStub_stub s : is_Some (printStub (SymbolFilter.stub s)).
Proof. destruct s; simpl; eauto. Qed.

(** * Imports are not pruned *)

(** C10: [Prune] changes no import spec: the store of import specs and
    [File.Imports] are as before, the import declarations of the file are
    the same declarations in the same order, every reference to an import
    spec is where it was, and each comment added is the placeholder of a
    function, a value name or a type. *)
Theorem prune_leaves_imports
    (format_Node : Node -> option string) (sf : SymbolFilter.t)
    (f f' : File) (changed : bool) :
  SymbolFilter.Prune format_Node sf f = Ok (f', changed) ->
  ImportObjs f' = ImportObjs f
  ∧ Imports f' = Imports f
  ∧ List.filter isImportDecl (Decls f') = List.filter isImportDecl (Decls f)
  ∧ flat_map declImports (Decls f') = flat_map declImports (Decls f)
  ∧ ∃ cs, Comments f' = Comments f ++ cs
          ∧ Forall (λ c, ∃ s, In s (symbols f)
                              ∧ SymbolFilter.placeholderFor format_Node sf f s c) cs.
Proof.
  intros H. destruct (SymbolFilter.IsEmpty sf) eqn:E.
  - unfold SymbolFilter.Prune in H. rewrite pruneFile_empty in H by done.
    injection H as <- <-. repeat split. exists []. by rewrite app_nil_r.
  - destruct (SymbolFilter_Prune_spec _ _ _ _ _ E H) as (-> & _ & cs & Hc & F).
    simpl. rewrite declAfter_import_groups, declAfter_imports.
    repeat split. exists cs. split; [done|].
    apply Forall2_Forall_right in F. eapply Forall_impl; [exact F|].
    intros c (s & Hin & Hr). exists s. split; [|done].
    by apply List.filter_In in Hin as [Hin _].
Qed.

Lemma prune_leaves_imports_witness :
  ImportObjs prunedImportsFile = ImportObjs importsFile
  ∧ Imports prunedImportsFile = Imports importsFile
  ∧ flat_map declImports (Decls prunedImportsFile)
    = flat_map declImports (Decls importsFile).
Proof.
  pose proof (prune_leaves_imports printStub (filterOf ["x.Func"])
                importsFile prunedImportsFile true eq_refl) as (H1 & H2 & _ & H4 & _).
  done.
Defined.

(** * Emptied declaration groups *)

Lemma symbols_split f pre d post :
  Decls f = pre ++ d :: post ->
  symbols f = flat_map declSymbols pre ++ declSymbols d ++ flat_map declSymbols post.
Proof. unfold symbols. intros ->. by rewrite flat_map_app. Qed.

Lemma declAfter_split table f pre d post :
  omap (declAfter table f) (pre ++ d :: post)
  = omap (declAfter table f) pre
    ++ option_list (declAfter table f d)
    ++ omap (declAfter table f) post.
Proof. rewrite omap_app. csimpl. by destruct (declAfter table f d). Qed.

Lemma Forall2_filter_split {A B} (P : A -> B -> Prop) (p : A -> bool)
    (a b c : list A) (cs : list B) :
  Forall2 P (List.filter p (a ++ b ++ c)) cs ->
  ∃ c1 c2 c3, cs = c1 ++ c2 ++ c3
              ∧ Forall2 P (List.filter p a) c1
              ∧ Forall2 P (List.filter p b) c2
              ∧ Forall2 P (List.filter p c) c3.
Proof.
  rewrite !List.filter_app.
  intros (c1 & c23 & F1 & (c2 & c3 & F2 & F3 & ->)%Forall2_app_inv_l & ->)%Forall2_app_inv_l.
  by exists c1, c2, c3.
Qed.

(** C5 as stated fails in three ways.  An import group without specs is
    not removed: neither callback of [Prune] visits import groups.  With
    an empty table [Prune] returns before any clean-up, so a group that
    was already empty stays.  And the comments that stood inside a removed
    group stay in the comment list of the file, next to the placeholder:
    [Prune] only ever appends to it. *)
Lemma prune_cleanup_not_as_specified :
  (∃ f', SymbolFilter.Prune printStub (filterOf ["x.V"]) emptyImportFile = Ok (f', true)
         ∧ Decls f' = [DGen emptyImportDecl]
         ∧ Specs emptyImportDecl = [])
  ∧ (SymbolFilter.Prune printStub (filterOf []) emptyGroupFile
     = Ok (emptyGroupFile, false)
     ∧ In (DGen (mkGenDecl None 12 VAR 16 [])) (Decls emptyGroupFile))
  ∧ (∃ f' c, SymbolFilter.Prune printStub (filterOf ["x.V1"]) commentedGroupFile
             = Ok (f', true)
             ∧ Decls f' = []
             ∧ Comments f' = [ownComment; c]).
Proof.
  split; [|split].
  - eexists. repeat split; reflexivity.
  - split; [reflexivity|]. left. reflexivity.
  - eexists _, _. repeat split; reflexivity.
Qed.

(** C5, amended: with a table that is not empty, after the clean-up pass
    of [Prune] no [var], [const] or [type] group without specs is left
    among the declarations, while the import groups are all still there,
    in order.  No comment is removed: the comment list is the old one
    followed by one placeholder for each pruned symbol, in source order.
    A group all of whose members were pruned is gone, the declarations
    before and after it being what they would be without it, and the
    comments added are the placeholders of what was pruned before the
    group, then one for each member of the group, then those of what was
    pruned after it. *)
Theorem prune_removes_emptied_groups
    (format_Node : Node -> option string) (sf : SymbolFilter.t) (f : File) :
  SymbolFilter.IsEmpty sf = false ->
  receiversSupported f = true ->
  (∀ s, In s (symbols f) -> is_Some (format_Node (SymbolFilter.stub s))) ->
  let table := SymbolFilter.WillPrune sf in
  let placeholders := Forall2 (SymbolFilter.placeholderFor format_Node sf f) in
  ∃ f' changed,
    SymbolFilter.Prune format_Node sf f = Ok (f', changed)
    ∧ (∀ g, In (DGen g) (Decls f') -> Tok g ≠ IMPORT -> Specs g ≠ [])
    ∧ List.filter isImportDecl (Decls f') = List.filter isImportDecl (Decls f)
    ∧ (∃ cs, Comments f' = Comments f ++ cs
             ∧ placeholders (List.filter (matched table f) (symbols f)) cs)
    ∧ ∀ pre g post,
        Decls f = pre ++ DGen g :: post ->
        Tok g ≠ IMPORT ->
        forallb (specFullyMatched table f) (Specs g) = true ->
        Decls f' = omap (declAfter table f) pre ++ omap (declAfter table f) post
        ∧ ∃ c1 c2 c3,
            Comments f' = Comments f ++ c1 ++ c2 ++ c3
            ∧ placeholders (List.filter (matched table f) (flat_map declSymbols pre)) c1
            ∧ placeholders (flat_map (specSymbols g) (Specs g)) c2
            ∧ placeholders (List.filter (matched table f) (flat_map declSymbols post)) c3.
Proof.
  intros E Hrecv Hfmt table placeholders.
  destruct (SymbolFilter_Prune_total format_Node sf f Hrecv Hfmt) as (f' & changed & H).
  exists f', changed. split; [done|].
  destruct (SymbolFilter_Prune_spec _ _ _ _ _ E H) as (Hf & _ & cs & Hc & F).
  fold table in Hf, F. split; [|split; [|split]].
  - intros g. rewrite Hf. simpl. apply declAfter_groups_nonempty.
  - rewrite Hf. simpl. apply declAfter_import_groups.
  - by exists cs.
  - intros pre g post Hd Ht Hall. split.
    + rewrite Hf. simpl. rewrite Hd, declAfter_split. simpl.
      rewrite bool_decide_eq_true_2 by done.
      by rewrite specAfter_all_matched.
    + rewrite (symbols_split f pre (DGen g) post Hd) in F.
      apply Forall2_filter_split in F as (c1 & c2 & c3 & -> & F1 & F2 & F3).
      exists c1, c2, c3. split; [done|]. split; [done|]. split; [|done].
      simpl in F2. rewrite bool_decide_eq_true_2 in F2 by done.
      rewrite filter_all in F2; [done|]. by apply specSymbols_all_matched.
Qed.

Lemma prune_removes_emptied_groups_witness :
  ∃ f' changed,
    SymbolFilter.Prune printStub (filterOf ["x.V1"; "x.V2"]) varGroupFile
    = Ok (f', changed)
    ∧ Decls f' = []
    ∧ ∃ c1 c2 c3,
        Comments f' = Comments varGroupFile ++ c1 ++ c2 ++ c3
        ∧ Forall2 (SymbolFilter.placeholderFor printStub (filterOf ["x.V1"; "x.V2"])
                     varGroupFile) [] c1
        ∧ Forall2 (SymbolFilter.placeholderFor printStub (filterOf ["x.V1"; "x.V2"])
                     varGroupFile)
                  (flat_map (specSymbols varGroupDecl) (Specs varGroupDecl)) c2
        ∧ Forall2 (SymbolFilter.placeholderFor printStub (filterOf ["x.V1"; "x.V2"])
                     varGroupFile) [] c3.
Proof.
  destruct (prune_removes_emptied_groups printStub (filterOf ["x.V1"; "x.V2"])
              varGroupFile eq_refl eq_refl (λ s _, printStub_stub s))
    as (f' & changed & Hrun & _ & _ & _ & Hg).
  exists f', changed. split; [done|].
  apply (Hg [] varGroupDecl []); [reflexivity|discriminate|reflexivity].
Defined.

(** * Value specs with several names *)

(** C3: in a value spec of a [var] or [const] group every name is looked
    up on its own.  The names after pruning are as many as before, a
    matched name being replaced by [_] at its position and the others kept;
    the type and the initializers are untouched.  When some name is not
    matched the spec stays in its group with these names; when all are
    matched the spec is deleted (and the group with it when nothing else
    is left).  In both cases one placeholder per matched name is added to
    the comments. *)
Theorem prune_multi_name_binding
    (format_Node : Node -> option string) (sf : SymbolFilter.t) (f : File)
    (pre post : list Decl) (g : GenDecl) (spre spost : list Spec) (v : ValueSpec) :
  SymbolFilter.IsEmpty sf = false ->
  receiversSupported f = true ->
  (∀ s, In s (symbols f) -> is_Some (format_Node (SymbolFilter.stub s))) ->
  Decls f = pre ++ DGen g :: post ->
  Tok g ≠ IMPORT ->
  Specs g = spre ++ SValue v :: spost ->
  let table := SymbolFilter.WillPrune sf in
  let names' := map (blankName table f) (Names v) in
  let before := omap (declAfter table f) pre in
  let after := omap (declAfter table f) post in
  let sbefore := omap (specAfter table f) spre in
  let safter := omap (specAfter table f) spost in
  ∃ f' changed,
    SymbolFilter.Prune format_Node sf f = Ok (f', changed)
    ∧ length names' = length (Names v)
    ∧ (∀ (i : nat) name, Names v !! i = Some name ->
         names' !! i = Some (if nameMatched table f name then NewIdent "_" else name))
    ∧ (forallb (nameMatched table f) (Names v) = false ->
         Decls f'
         = before
           ++ DGen (withSpecs g
                      (sbefore
                       ++ SValue (mkValueSpec names' (ValueSpec_Type v) (Values v))
                       :: safter))
           :: after)
    ∧ (forallb (nameMatched table f) (Names v) = true ->
         Decls f'
         = before
           ++ match sbefore ++ safter with
              | [] => []
              | specs => [DGen (withSpecs g specs)]
              end
           ++ after)
    ∧ ∃ c1 c2 c3,
        Comments f' = Comments f ++ c1 ++ c2 ++ c3
        ∧ Forall2 (SymbolFilter.placeholderFor format_Node sf f)
                  (map (SymValue g) (List.filter (nameMatched table f) (Names v))) c2.
Proof.
  intros E Hrecv Hfmt Hd Ht Hs table names' before after sbefore safter.
  destruct (SymbolFilter_Prune_total format_Node sf f Hrecv Hfmt) as (f' & changed & H).
  exists f', changed. split; [done|].
  destruct (SymbolFilter_Prune_spec _ _ _ _ _ E H) as (Hf & _ & cs & Hc & F).
  fold table in Hf, F.
  assert (Hdecls : Decls f' = before ++ option_list (declAfter table f (DGen g)) ++ after).
  { rewrite Hf. simpl. by rewrite Hd, declAfter_split. }
  assert (Hspecs : omap (specAfter table f) (Specs g)
                   = sbefore ++ option_list (specAfter table f (SValue v)) ++ safter).
  { rewrite Hs, omap_app. csimpl. by destruct (forallb _ _). }
  split; [apply length_map|]. split; [|split; [|split]].
  - intros i name Hi. unfold names'. rewrite list_lookup_fmap, Hi. done.
  - intros Hn. rewrite Hdecls. simpl. rewrite bool_decide_eq_true_2 by done.
    rewrite Hspecs. simpl. rewrite Hn. simpl.
    by destruct sbefore.
  - intros Hn. rewrite Hdecls. simpl. rewrite bool_decide_eq_true_2 by done.
    rewrite Hspecs. simpl. rewrite Hn. simpl.
    by destruct (sbefore ++ safter).
  - rewrite (symbols_split f pre (DGen g) post Hd) in F.
    simpl in F. rewrite bool_decide_eq_true_2 in F by done.
    rewrite Hs, flat_map_app in F. simpl in F.
    rewrite <- !app_assoc in F. rewrite app_assoc in F.
    apply Forall2_filter_middle in F as (c1 & c2 & c3 & -> & F).
    exists c1, c2, c3. split; [done|]. by rewrite <- filter_matched_names.
Qed.

Lemma prune_multi_name_binding_witness :
  ∃ f' changed,
    SymbolFilter.Prune printStub (filterOf ["x.V1"]) multiVarFile = Ok (f', changed)
    ∧ Decls f'
      = [DFunc (mkFuncDecl None None (ident 17 "F")
                  (mkFuncType 12 noParams
                     (Some (mkFieldList 21 [unnamed (EIdent (ident 22 "int"));
                                            unnamed (EIdent (ident 27 "int"))])))
                  (Some "{return 1, 2}"));
         DGen (mkGenDecl None 47 VAR NoPos
                 [SValue (mkValueSpec [NewIdent "_"; ident 55 "V2"] None ["F()"])])].
Proof.
  destruct (prune_multi_name_binding printStub (filterOf ["x.V1"]) multiVarFile
              [DFunc (mkFuncDecl None None (ident 17 "F")
                        (mkFuncType 12 noParams
                           (Some (mkFieldList 21 [unnamed (EIdent (ident 22 "int"));
                                                  unnamed (EIdent (ident 27 "int"))])))
                        (Some "{return 1, 2}"))]
              [] multiVarDecl [] []
              (mkValueSpec [ident 51 "V1"; ident 55 "V2"] None ["F()"])
              eq_refl eq_refl (λ s _, printStub_stub s) eq_refl)
    as (f' & changed & Hrun & _ & _ & H & _); [discriminate|reflexivity|].
  exists f', changed. split; [done|]. exact (H eq_refl).
Defined.

(** * The import redirector *)

Section NosyncFacts.
Variable Unquote : string -> option string.

Lemma redirect_idempotent spec : redirect (redirect spec) = redirect spec.
Proof. unfold redirect. simpl. by destruct (ImportSpec_Name spec). Qed.

Lemma nosyncLoop_spec imports objs modified :
  (∀ l, l ∈ imports -> is_Some (objs !! l)) ->
  ∃ objs',
    nosyncLoop Unquote imports objs modified
    = Ok (objs', modified || existsb (syncAt Unquote objs) imports)
    ∧ ∀ l, objs' !! l = redirected Unquote imports l <$> objs !! l.
Proof.
  revert objs modified.
  induction imports as [|l0 rest IH]; intros objs modified Hall; simpl.
  - exists objs. rewrite orb_false_r. split; [done|]. intros l.
    destruct (objs !! l) as [spec|]; simpl; [|done].
    unfold redirected. rewrite bool_decide_eq_false_2; [done|].
    intros [H _]. by apply elem_of_nil in H.
  - destruct (Hall l0) as [spec0 H0]; [by left|]. rewrite H0.
    unfold syncAt at 1. rewrite H0.
    case_bool_decide as Hsync.
    + destruct (IH (<[l0 := redirect spec0]> objs) true) as (objs' & Hrun & Hlook).
      { intros l Hl. apply lookup_insert_is_Some'. right. apply Hall. by right. }
      exists objs'. rewrite Hrun. simpl. rewrite orb_true_r. split; [done|].
      intros l. rewrite Hlook. destruct (decide (l = l0)) as [->|Hne].
      * rewrite lookup_insert_eq, H0. simpl. f_equal.
        unfold redirected at 2. rewrite bool_decide_eq_true_2 by (split; [by left|done]).
        unfold redirected. case_bool_decide; [apply redirect_idempotent|done].
      * rewrite lookup_insert_ne by done.
        destruct (objs !! l) as [spec|]; simpl; [|done]. f_equal.
        unfold redirected. erewrite bool_decide_ext; [reflexivity|].
        rewrite elem_of_cons.
        split; [intros [? ?]; auto|intros [[?|?] ?]; [done|auto]].
    + destruct (IH objs modified) as (objs' & Hrun & Hlook).
      { intros l Hl. apply Hall. by right. }
      exists objs'. rewrite Hrun. simpl. split; [done|].
      intros l. rewrite Hlook.
      destruct (objs !! l) as [spec|] eqn:Hl; simpl; [|done]. f_equal.
      unfold redirected. erewrite bool_decide_ext; [reflexivity|].
      rewrite elem_of_cons. split; [intros [? ?]; auto|].
      intros [[->|Hin] Hp]; [|done]. congruence.
Qed.

(** C8: [nosync] rewrites exactly the import specs of [f.Imports] whose
    path unquotes to "sync": the path becomes the nosync package, an
    import without a name is given the name "sync" and a name already
    there is kept.  Every other import spec, among them one that already
    imports the nosync package, is left as it is, and so is the rest of
    the file.  The result is true if and only if some import was
    rewritten. *)
Theorem nosync_redirects_sync_imports (fset : token_FileSet) (f : File) :
  (∀ l, l ∈ Imports f -> is_Some (ImportObjs f !! l)) ->
  default "" (Unquote nosyncPath) ≠ "sync" ->
  ∃ f' changed,
    nosync Unquote fset f = Ok (f', changed)
    ∧ Decls f' = Decls f ∧ Imports f' = Imports f ∧ Comments f' = Comments f
    ∧ File_Name f' = File_Name f ∧ File_Doc f' = File_Doc f
    ∧ (∀ l spec, ImportObjs f !! l = Some spec ->
         ImportObjs f' !! l
         = Some (if bool_decide (l ∈ Imports f ∧ importPath Unquote spec = "sync")
                 then mkImportSpec
                        (Some (default (NewIdent "sync") (ImportSpec_Name spec)))
                        (mkBasicLit (ValuePos (Path spec)) nosyncPath)
                 else spec))
    ∧ (∀ l, ImportObjs f !! l = None -> ImportObjs f' !! l = None)
    ∧ (∀ l spec, ImportObjs f !! l = Some spec -> Value (Path spec) = nosyncPath ->
         ImportObjs f' !! l = Some spec)
    ∧ (changed = true
       <-> ∃ l spec, l ∈ Imports f ∧ ImportObjs f !! l = Some spec
                     ∧ importPath Unquote spec = "sync").
Proof.
  intros Hall Hdest.
  destruct (nosyncLoop_spec (Imports f) (ImportObjs f) false Hall) as (objs' & Hrun & Hlook).
  unfold nosync. rewrite Hrun. simpl.
  eexists _, _. split; [done|]. simpl. repeat split; try done.
  - intros l spec Hl. rewrite Hlook, Hl. simpl. f_equal.
    unfold redirected, redirect. case_bool_decide; [|done].
    by destruct (ImportSpec_Name spec).
  - intros l Hl. by rewrite Hlook, Hl.
  - intros l spec Hl Hv. rewrite Hlook, Hl. simpl. f_equal.
    unfold redirected. rewrite bool_decide_eq_false_2; [done|].
    intros [_ Hp]. unfold importPath in Hp. rewrite Hv in Hp. done.
  - intros (l & Hin & Hs)%existsb_exists. unfold syncAt in Hs.
    destruct (ImportObjs f !! l) as [spec|] eqn:Hl; [|done].
    exists l, spec. apply bool_decide_eq_true in Hs. by rewrite list_elem_of_In.
  - intros (l & spec & Hin & Hl & Hp). apply existsb_exists. exists l.
    split; [by apply list_elem_of_In|]. unfold syncAt. rewrite Hl.
    by apply bool_decide_eq_true.
Qed.
End NosyncFacts.

Lemma nosync_redirects_sync_imports_witness :
  ∃ f' changed,
    nosync unquotePlain exampleFset importsFile = Ok (f', changed)
    ∧ ImportObjs f' !! 1%nat
      = Some (mkImportSpec (Some (NewIdent "sync")) (mkBasicLit 31 nosyncPath))
    ∧ ImportObjs f' !! 2%nat
      = Some (mkImportSpec (Some (ident 39 "stdsync")) (mkBasicLit 47 nosyncPath))
    ∧ ImportObjs f' !! 3%nat = ImportObjs importsFile !! 3%nat
    ∧ ImportObjs f' !! 0%nat = ImportObjs importsFile !! 0%nat.
Proof.
  destruct (nosync_redirects_sync_imports unquotePlain exampleFset importsFile)
    as (f' & changed & Hrun & _ & _ & _ & _ & _ & Hre & _ & _ & _).
  - intros l Hl. vm_compute in Hl.
    repeat (apply elem_of_cons in Hl as [->|Hl]; [vm_compute; eauto|]).
    by apply elem_of_nil in Hl.
  - vm_compute. discriminate.
  - exists f', changed. split; [done|].
    split; [exact (Hre 1%nat _ eq_refl)|].
    split; [exact (Hre 2%nat _ eq_refl)|].
    split; [exact (Hre 3%nat _ eq_refl)|exact (Hre 0%nat _ eq_refl)].
Defined.

(** * Placeholder comments *)

Lemma append_assoc (a b c : string) : (a +:+ b) +:+ c = a +:+ b +:+ c.
Proof. induction a as [|x a IH]; [done|]. change (String x ((a +:+ b) +:+ c) = String x (a +:+ b +:+ c)). by f_equal. Qed.

Lemma append_nonempty (a b : string) : a ≠ "" -> a +:+ b ≠ "".
Proof. by destruct a. Qed.

(** A valid position with a file name and a column is rendered as
    "file:line:column". *)
Lemma Position_String_full p :
  Position_IsValid p = true -> Filename p ≠ "" -> Column p ≠ 0 ->
  Position_String p = Filename p +:+ ":" +:+ Itoa (Line p) +:+ ":" +:+ Itoa (Column p).
Proof.
  intros Hv Hf Hc. unfold Position_String. rewrite Hv.
  rewrite (bool_decide_eq_false_2 (Filename p = "")) by done.
  rewrite (bool_decide_eq_false_2 (Column p = 0)) by done.
  rewrite bool_decide_eq_false_2.
  - by rewrite !append_assoc.
  - rewrite !append_assoc. by apply append_nonempty.
Qed.

(** C4 as stated fails.  [SymbolFilter] prints the stub of the pruned
    declaration: a type carries [<abbreviated>] and a function its
    signature, so the text is not "// K N — ...".  [augmenter] prints kind
    and name only: the comment of a value name has no abbreviated type. *)
Lemma placeholder_text_not_as_specified :
  SymbolFilter.Prune printStub (filterOf ["x.T1"; "x.Func"]) funcFile
  = Ok (prunedFuncFile, true)
  ∧ map (λ c, map Text (CList c)) (Comments prunedFuncFile)
    = [["// type T1 <abbreviated> — GopherJS replacement at example.go:1:11"];
       ["// func Func() — GopherJS replacement at example.go:1:11"]]
  ∧ "// type T1 <abbreviated> — GopherJS replacement at example.go:1:11"
    ≠ specifiedText "type" "T1" (exampleFset 11)
  ∧ "// func Func() — GopherJS replacement at example.go:1:11"
    ≠ specifiedText "func" "Func" (exampleFset 11)
  ∧ (∃ f', augmenter.Prune (augmenter.mk (tableOf ["x.V1"])) exampleFset multiVarFile
           = Ok (f', true)
           ∧ map (λ c, map Text (CList c)) (Comments f')
             = [["// var V1" +:+ augmenter.separator
                   +:+ "GopherJS replacement at example.go:1:11"]])
  ∧ "// var V1" +:+ augmenter.separator +:+ "GopherJS replacement at example.go:1:11"
    ≠ specifiedText "var" "V1 <abbreviated>" (exampleFset 11).
Proof.
  split; [reflexivity|]. split; [reflexivity|].
  split; [vm_compute; discriminate|]. split; [vm_compute; discriminate|].
  split; [|vm_compute; discriminate].
  eexists. split; reflexivity.
Qed.

(** C4, amended: [Prune] appends one comment per pruned symbol, a value
    spec with several names giving one comment per blanked name.  The
    comment of [SymbolFilter] is at the symbol's position and reads
    "// ", the printed stub of the declaration, " — GopherJS replacement
    at " and the replacement position; the stub of a value name holds that
    name, the type [<abbreviated>] and no initializer.  The comment of
    [augmenter] reads "// ", the kind, the name (with the receiver for a
    method), a separator, "GopherJS replacement at " and the position.  A
    valid position with file name and column reads "file:line:column". *)
Theorem placeholder_text
    (format_Node : Node -> option string) (sf : SymbolFilter.t)
    (a : augmenter.t) (fset : token_FileSet) (f f1 f2 : File) (c1 c2 : bool) :
  SymbolFilter.IsEmpty sf = false ->
  SymbolFilter.Prune format_Node sf f = Ok (f1, c1) ->
  augmenter.IsEmpty a = false ->
  augmenter.Prune a fset f = Ok (f2, c2) ->
  (∃ cs, Comments f1 = Comments f ++ cs
         ∧ Forall2
             (λ s c, ∃ pos printed,
                lookupSymbol (SymbolFilter.WillPrune sf) f s = Some pos
                ∧ format_Node (SymbolFilter.stub s) = Some printed
                ∧ c = mkCommentGroup
                        [mkComment (origPos s)
                           ("// " +:+ commentOutLines printed
                              +:+ " — GopherJS replacement at "
                              +:+ Position_String (SymbolFilter.position sf pos))])
             (List.filter (matched (SymbolFilter.WillPrune sf) f) (symbols f)) cs)
  ∧ (∀ parent name,
       SymbolFilter.stub (SymValue parent name)
       = NGenDecl (mkGenDecl None (TokPos parent) (Tok parent) NoPos
                     [SValue (mkValueSpec [name]
                                (Some (EIdent (NewIdent "<abbreviated>"))) [])]))
  ∧ (∃ cs, Comments f2 = Comments f ++ cs
           ∧ Forall2
               (λ s c, ∃ pos name,
                  lookupSymbol (augmenter.Replacements a) f s = Some pos
                  ∧ augmenter.symbolName s = Ok name
                  ∧ c = mkCommentGroup
                          [mkComment (origPos s)
                             ("// " +:+ Token_String (augmenter.symbolKind s)
                                +:+ " " +:+ name +:+ augmenter.separator
                                +:+ "GopherJS replacement at "
                                +:+ Position_String (fset pos))])
               (List.filter (matched (augmenter.Replacements a) f) (symbols f)) cs)
  ∧ (∀ p, Position_IsValid p = true -> Filename p ≠ "" -> Column p ≠ 0 ->
          Position_String p
          = Filename p +:+ ":" +:+ Itoa (Line p) +:+ ":" +:+ Itoa (Column p)).
Proof.
  intros E1 H1 E2 H2.
  destruct (SymbolFilter_Prune_spec _ _ _ _ _ E1 H1) as (_ & _ & cs1 & Hc1 & F1).
  destruct (augmenter_Prune_spec _ _ _ _ _ E2 H2) as (_ & _ & cs2 & Hc2 & F2).
  split; [|split; [done|split; [|apply Position_String_full]]].
  - exists cs1. split; [done|]. eapply Forall2_impl; [exact F1|].
    intros s c (pos & L & R). unfold SymbolFilter.placeholder in R.
    destruct (format_Node (SymbolFilter.stub s)) as [printed|]; [|discriminate].
    injection R as <-. by exists pos, printed.
  - exists cs2. split; [done|]. eapply Forall2_impl; [exact F2|].
    intros s c (pos & name & L & N & ->). by exists pos, name.
Qed.

Lemma placeholder_text_witness :
  ∃ cs, Comments prunedFuncFile = Comments funcFile ++ cs ∧ length cs = 2%nat.
Proof.
  destruct (placeholder_text printStub (filterOf ["x.T1"; "x.Func"])
              (augmenter.mk (tableOf ["x.T1"; "x.Func"])) exampleFset
              funcFile prunedFuncFile augmentedFuncFile true true
              eq_refl eq_refl eq_refl eq_refl) as ((cs & Hc & F) & _).
  exists cs. split; [done|]. apply Forall2_length in F. by rewrite <- F.
Defined.

(** * Chained transformers *)

Lemma chain_left_changed (left right : astTransformer) fset f f1 :
  left fset f = Ok (f1, true) -> chain left right fset f = Ok (f1, true).
Proof. unfold chain. by intros ->. Qed.

Lemma chain_left_unchanged (left right : astTransformer) fset f f1 :
  left fset f = Ok (f1, false) -> chain left right fset f = right fset f1.
Proof. unfold chain. by intros ->. Qed.

(** The flag of a chain is the disjunction of the flags; the tree is the
    one the right transformer returns only when the left one reported no
    change. *)
Lemma chain_result (left right : astTransformer) fset f f1 c1 f2 c2 :
  left fset f = Ok (f1, c1) -> right fset f1 = Ok (f2, c2) ->
  chain left right fset f = Ok (if c1 then f1 else f2, c1 || c2).
Proof. unfold chain. intros -> Hr. destruct c1; [done|]. by rewrite Hr. Qed.

(** C1 fails on the code: [nosync] chained with [Prune] on a file that
    imports "sync" and declares the function to prune.  [nosync] reports a
    change, the chain returns with the tree [nosync] left and [Prune] is
    not run, although run on that tree it would delete the function. *)
Theorem chain_skips_right_after_change :
  nosync unquotePlain exampleFset importsFile = Ok (redirectedImportsFile, true)
  ∧ chain (nosync unquotePlain) (augmenter.Prune (augmenter.mk (tableOf ["x.Func"])))
      exampleFset importsFile
    = Ok (redirectedImportsFile, true)
  ∧ In (DFunc (simpleFunc 110 "Func")) (Decls redirectedImportsFile)
  ∧ ∃ f2, augmenter.Prune (augmenter.mk (tableOf ["x.Func"])) exampleFset
            redirectedImportsFile
          = Ok (f2, true)
          ∧ ¬ In (DFunc (simpleFunc 110 "Func")) (Decls f2).
Proof.
  assert (H : nosync unquotePlain exampleFset importsFile
              = Ok (redirectedImportsFile, true))
    by (vm_compute; reflexivity).
  split; [done|]. split; [by apply chain_left_changed|].
  split; [simpl; auto|].
  eexists. split; [reflexivity|].
  simpl. intros [?|[?|[]]]; discriminate.
Qed.

(** * Writing the destination *)

Section Destination.
Context `{Platform}.

(** [os.Stat] finds a regular file. *)
Lemma os_Stat_regular d path content :
  entries d !! path = Some (Regular content) -> os_Stat d path = None.
Proof.
  intros E. unfold os_Stat.
  rewrite follow_not_link by (intros text; by rewrite E). by rewrite E.
Qed.

(** [writeAST] refuses a destination unless [os.Stat] reports that there
    is none, and leaves the disk alone. *)
Lemma writeAST_refuses formatFile d path source :
  os_IsNotExist (os_Stat d path) = false ->
  writeAST formatFile d path source = (Some (AlreadyExists path), d).
Proof. unfold writeAST. by intros ->. Qed.

(** [writeAST] refuses a destination that is a file and leaves it alone. *)
Lemma writeAST_existing formatFile d path source content :
  entries d !! path = Some (Regular content) ->
  writeAST formatFile d path source = (Some (AlreadyExists path), d).
Proof. intros E. apply writeAST_refuses. by rewrite (os_Stat_regular _ _ content). Qed.

(** The link of [copyUnmodified] fails on a destination that exists. *)
Lemma copyUnmodified_Dir_existing Join d root loadPath writePath e :
  entries d !! writePath = Some e ->
  copyUnmodified Join d (Dir root) loadPath writePath = (Some EEXIST, d).
Proof. unfold copyUnmodified, os_Symlink. by intros ->. Qed.

(** The byte copy of [copyUnmodified] replaces a destination that is a
    file. *)
Lemma copyUnmodified_Virtual_existing Join d files loadPath writePath src old :
  files !! loadPath = Some src ->
  entries d !! writePath = Some (Regular old) ->
  writePath ∉ denied d ->
  writePath ∉ unwritable d ->
  copyUnmodified Join d (Virtual files) loadPath writePath
  = (None, writeFile d writePath src).
Proof.
  intros Hsrc E Hd Hu. unfold copyUnmodified, os_Create. simpl. rewrite Hsrc.
  rewrite follow_not_link by (intros text; by rewrite E).
  rewrite bool_decide_eq_false_2 by done.
  rewrite bool_decide_eq_false_2 by (simpl; tauto).
  unfold writeFile. simpl. by rewrite insert_insert_eq.
Qed.
End Destination.

(** C2 fails on the code: an unchanged file read from a file system that
    is not [http.Dir] is copied with [os.Create], which truncates the
    destination that exists; [processSource] returns no error and the old
    content is gone. *)
Theorem copy_overwrites_existing_destination :
  readFile occupiedDisk "out/a.go" = Some "package old"
  ∧ ∃ d', processSource (λ _ _, Some (sourceFile "x" [])) (λ _, Some "package x")
            joinPath id exampleFset occupiedDisk memoryFS "a.go" "out/a.go" identity
          = Ok (None, d')
          ∧ readFile d' "out/a.go" = Some "package x".
Proof.
  split; [reflexivity|]. eexists. split; reflexivity.
Qed.

(** * Further properties of the transformers *)

(** X1: [identity] is a neutral element of [chain] on both sides: chained
    with any transformer it gives that transformer's tree, flag and
    panic. *)
Theorem chain_identity_neutral (t : astTransformer) (fset : token_FileSet) (f : File) :
  chain identity t fset f = t fset f ∧ chain t identity fset f = t fset f.
Proof.
  split; [reflexivity|].
  unfold chain, identity. destruct (t fset f) as [[f1 [|]]|p]; reflexivity.
Qed.

(** X2: [chain] is associative: both groupings of three transformers
    return the same tree and flag, or panic alike. *)
Theorem chain_assoc (a b c : astTransformer) (fset : token_FileSet) (f : File) :
  chain (chain a b) c fset f = chain a (chain b c) fset f.
Proof.
  unfold chain. destruct (a fset f) as [[f1 [|]]|p]; [reflexivity| |reflexivity].
  destruct (b fset f1) as [[f2 [|]]|p]; reflexivity.
Qed.

(** * Further properties of [Collect] *)

Lemma enter_snoc f t syms s :
  enter f t (syms ++ [s]) = <[symbolKey f s := symbolPos s]> (enter f t syms).
Proof. unfold enter. by rewrite foldl_app. Qed.

Lemma lastEntry_snoc f syms s k :
  lastEntry f (syms ++ [s]) k
  = if bool_decide (symbolKey f s = k) then Some (symbolPos s) else lastEntry f syms k.
Proof. unfold lastEntry. by rewrite foldl_app. Qed.

Lemma enter_lookup f t syms k :
  enter f t syms !! k = from_option Some (t !! k) (lastEntry f syms k).
Proof.
  induction syms as [|s syms IH] using rev_ind; [done|].
  rewrite enter_snoc, lastEntry_snoc. case_bool_decide as Hk.
  - subst k. by rewrite lookup_insert_eq.
  - by rewrite lookup_insert_ne.
Qed.

Lemma lastEntry_None f syms k :
  lastEntry f syms k = None <-> ¬ In k (map (symbolKey f) syms).
Proof.
  induction syms as [|s syms IH] using rev_ind; [simpl; tauto|].
  rewrite lastEntry_snoc, map_app, in_app_iff. simpl. case_bool_decide as Hk.
  - split; [discriminate|]. intros H. exfalso. apply H. auto.
  - rewrite IH. tauto.
Qed.

Lemma lastEntry_last f l1 s l2 :
  ¬ In (symbolKey f s) (map (symbolKey f) l2) ->
  lastEntry f (l1 ++ s :: l2) (symbolKey f s) = Some (symbolPos s).
Proof.
  induction l2 as [|s2 l2 IH] using rev_ind; intros Hn.
  - rewrite lastEntry_snoc. by rewrite bool_decide_eq_true_2.
  - rewrite map_app, in_app_iff in Hn. simpl in Hn.
    change (l1 ++ s :: l2 ++ [s2]) with (l1 ++ (s :: l2) ++ [s2]).
    rewrite app_assoc, lastEntry_snoc.
    rewrite bool_decide_eq_false_2 by (intros E; apply Hn; auto).
    apply IH. tauto.
Qed.

(** X3: on a file whose receivers are supported [Collect] returns false
    and a table that holds, beside what it held, the key of every
    top-level symbol of the file: an entry under another key keeps its
    position, and the entry of a symbol is the position of that symbol
    unless a later symbol of the file has the same key. *)
Theorem Collect_table (sf : SymbolFilter.t) (f : File) :
  receiversSupported f = true ->
  ∃ sf',
    SymbolFilter.Collect sf f = Ok (sf', false)
    ∧ SymbolFilter.FileSet sf' = SymbolFilter.FileSet sf
    ∧ (∀ k, is_Some (SymbolFilter.WillPrune sf' !! k)
            <-> is_Some (SymbolFilter.WillPrune sf !! k)
                ∨ In k (map (symbolKey f) (symbols f)))
    ∧ (∀ k, ¬ In k (map (symbolKey f) (symbols f)) ->
            SymbolFilter.WillPrune sf' !! k = SymbolFilter.WillPrune sf !! k)
    ∧ (∀ l1 s l2, symbols f = l1 ++ s :: l2 ->
                  ¬ In (symbolKey f s) (map (symbolKey f) l2) ->
                  SymbolFilter.WillPrune sf' !! symbolKey f s = Some (symbolPos s)).
Proof.
  intros Hs. unfold SymbolFilter.Collect. rewrite collectFile_spec by done. simpl.
  eexists. split; [reflexivity|]. simpl. split; [done|]. split; [|split].
  - intros k. rewrite enter_lookup.
    destruct (lastEntry f (symbols f) k) as [p|] eqn:E; simpl.
    + split; [|eauto]. intros _. right.
      destruct (decide (k ∈ map (symbolKey f) (symbols f))) as [Hin|Hn];
        [by apply list_elem_of_In|].
      rewrite list_elem_of_In in Hn. apply lastEntry_None in Hn. congruence.
    + apply lastEntry_None in E. tauto.
  - intros k Hn. rewrite enter_lookup. apply lastEntry_None in Hn. by rewrite Hn.
  - intros l1 s l2 Hsplit Hn. rewrite enter_lookup, Hsplit.
    by rewrite lastEntry_last.
Qed.

Lemma Collect_table_witness :
  ∃ sf', SymbolFilter.Collect (filterOf ["x.Func"]) methodFile = Ok (sf', false)
         ∧ SymbolFilter.WillPrune sf' !! "x.Func" = Some 11
         ∧ SymbolFilter.WillPrune sf' !! "x.T.M" = Some 42.
Proof.
  destruct (Collect_table (filterOf ["x.Func"]) methodFile eq_refl)
    as (sf' & Hrun & _ & _ & Hkeep & Hlast).
  exists sf'. split; [done|]. split.
  - etransitivity; [apply (Hkeep "x.Func")|reflexivity].
    vm_compute. intros [?|[?|[?|[]]]]; discriminate.
  - apply (Hlast [SymType (mkGenDecl None 12 TYPE NoPos
                             [SType (mkTypeSpec (ident 17 "T") NoPos (EIdent (ident 19 "int")))])
                    (mkTypeSpec (ident 17 "T") NoPos (EIdent (ident 19 "int")));
                  SymFunc valueMethod]
                 (SymFunc pointerMethod) []); [reflexivity|].
    simpl. tauto.
Defined.

(** X4: collecting the same file again changes nothing: the table after
    the second [Collect] is the table after the first. *)
Theorem Collect_idempotent (sf : SymbolFilter.t) (f : File) :
  receiversSupported f = true ->
  ∃ sf', SymbolFilter.Collect sf f = Ok (sf', false)
         ∧ SymbolFilter.Collect sf' f = Ok (sf', false).
Proof.
  intros Hs. unfold SymbolFilter.Collect. rewrite collectFile_spec by done. simpl.
  eexists. split; [reflexivity|]. rewrite collectFile_spec by done. simpl.
  do 2 f_equal. f_equal. apply map_eq. intros k. rewrite !enter_lookup.
  by destruct (lastEntry f (symbols f) k).
Qed.

Lemma Collect_idempotent_witness :
  ∃ sf', SymbolFilter.Collect (filterOf []) exampleSource = Ok (sf', false)
         ∧ SymbolFilter.Collect sf' exampleSource = Ok (sf', false).
Proof. exact (Collect_idempotent (filterOf []) exampleSource eq_refl). Defined.

(** * Further properties of [Prune] *)

Lemma empty_table_unmatched table f s :
  tableIsEmpty table = true -> matched table f s = false.
Proof.
  unfold tableIsEmpty. intros H%bool_decide_eq_true%map_size_empty_inv. subst table.
  unfold matched, lookupSymbol. destruct (key f (symbolNode s)); no_entry.
Qed.

Lemma empty_table_none_matched table f syms :
  tableIsEmpty table = true -> existsb (matched table f) syms = false.
Proof.
  intros E. induction syms as [|s syms IH]; simpl; [done|].
  by rewrite empty_table_unmatched.
Qed.

(** What [Prune] returns, with an empty table or not. *)
Lemma pruneFile_outcome phF phV phT table f f' changed :
  pruneFile phF phV phT table f = Ok (f', changed) ->
  changed = existsb (matched table f) (symbols f)
  ∧ (∃ cs, Comments f' = Comments f ++ cs
           ∧ Forall2 (placeholderOf phF phV phT table f)
                     (List.filter (matched table f) (symbols f)) cs)
  ∧ (tableIsEmpty table = true -> f' = f)
  ∧ (tableIsEmpty table = false ->
       f' = withDecls f (omap (declAfter table f) (Decls f)) (Comments f')).
Proof.
  intros H. destruct (tableIsEmpty table) eqn:E.
  - rewrite pruneFile_empty in H by done. injection H as <- <-.
    rewrite empty_table_none_matched by done. split; [done|]. split; [|done].
    exists []. rewrite app_nil_r. split; [done|].
    rewrite filter_none by (by apply empty_table_none_matched). constructor.
  - destruct (pruneFile_spec _ _ _ _ _ _ _ E H) as (Hf & Hc & Hcs). done.
Qed.

Lemma matched_lookup table f s :
  matched table f s = true <-> is_Some (lookupSymbol table f s).
Proof. unfold matched. apply bool_decide_eq_true. Qed.

(** X5: [Prune] reports a change exactly when the key of some top-level
    function, type, variable or constant of the file is in the table. *)
Theorem Prune_changed_iff
    (format_Node : Node -> option string) (sf : SymbolFilter.t) (f : File) :
  receiversSupported f = true ->
  (∀ s, In s (symbols f) -> is_Some (format_Node (SymbolFilter.stub s))) ->
  ∃ f' changed,
    SymbolFilter.Prune format_Node sf f = Ok (f', changed)
    ∧ (changed = true
       <-> ∃ s, In s (symbols f)
                ∧ is_Some (lookupSymbol (SymbolFilter.WillPrune sf) f s)).
Proof.
  intros Hs Hfmt.
  destruct (SymbolFilter_Prune_total format_Node sf f Hs Hfmt) as (f' & changed & H).
  exists f', changed. split; [done|].
  apply pruneFile_outcome in H as (-> & _).
  rewrite existsb_exists. by setoid_rewrite matched_lookup.
Qed.

Lemma Prune_changed_iff_witness :
  ∃ f' changed,
    SymbolFilter.Prune printStub (filterOf ["x.V1"]) multiVarFile = Ok (f', changed)
    ∧ (changed = true
       <-> ∃ s, In s (symbols multiVarFile)
                ∧ is_Some (lookupSymbol (tableOf ["x.V1"]) multiVarFile s)).
Proof.
  exact (Prune_changed_iff printStub (filterOf ["x.V1"]) multiVarFile eq_refl
           (λ s _, printStub_stub s)).
Defined.

Lemma declAfter_funcs table f (decls : list Decl) :
  omap asFunc (omap (declAfter table f) decls)
  = List.filter (λ node, negb (matched table f (SymFunc node))) (omap asFunc decls).
Proof.
  induction decls as [|d rest IH]; csimpl; [done|].
  destruct d as [a b|g|node]; csimpl.
  - done.
  - case_bool_decide; csimpl; [|done].
    by destruct (omap (specAfter table f) (Specs g)).
  - destruct (matched table f (SymFunc node)); csimpl; [done|]. by rewrite IH.
Qed.

Lemma filter_unmatched_all {A} (p : A -> bool) (l : list A) :
  (∀ x, p x = true) -> List.filter p l = l.
Proof. intros H. apply filter_all, forallb_forall. auto. Qed.

(** X6: [Prune] deletes exactly the functions and methods whose key is in
    the table: the function declarations of the result are the unmatched
    ones of the file, unchanged and in source order. *)
Theorem Prune_keeps_unmatched_functions
    (format_Node : Node -> option string) (sf : SymbolFilter.t) (f : File) :
  receiversSupported f = true ->
  (∀ s, In s (symbols f) -> is_Some (format_Node (SymbolFilter.stub s))) ->
  ∃ f' changed,
    SymbolFilter.Prune format_Node sf f = Ok (f', changed)
    ∧ omap asFunc (Decls f')
      = List.filter (λ node, negb (matched (SymbolFilter.WillPrune sf) f (SymFunc node)))
                    (omap asFunc (Decls f)).
Proof.
  intros Hs Hfmt.
  destruct (SymbolFilter_Prune_total format_Node sf f Hs Hfmt) as (f' & changed & H).
  exists f', changed. split; [done|].
  apply pruneFile_outcome in H as (_ & _ & He & Hne).
  destruct (tableIsEmpty (SymbolFilter.WillPrune sf)) eqn:E.
  - rewrite (He eq_refl). symmetry. apply filter_unmatched_all.
    intros node. by rewrite empty_table_unmatched.
  - rewrite (Hne eq_refl). simpl. apply declAfter_funcs.
Qed.

Lemma Prune_keeps_unmatched_functions_witness :
  ∃ f' changed,
    SymbolFilter.Prune printStub (filterOf ["x.T1"; "x.Func"]) funcFile
    = Ok (f', changed)
    ∧ omap asFunc (Decls f') = [simpleFunc 41 "OtherFunc"].
Proof.
  exact (Prune_keeps_unmatched_functions printStub (filterOf ["x.T1"; "x.Func"])
           funcFile eq_refl (λ s _, printStub_stub s)).
Defined.

Lemma symbolKey_key f s k : key f (symbolNode s) = Ok k -> symbolKey f s = k.
Proof. unfold symbolKey. by intros ->. Qed.

Lemma supported_key f s :
  receiversSupported f = true -> In s (symbols f) ->
  ∃ k, key f (symbolNode s) = Ok k.
Proof.
  unfold receiversSupported. rewrite forallb_forall. intros H Hin.
  specialize (H s Hin). destruct (key f (symbolNode s)); [eauto|done].
Qed.

Lemma collected_matched f t s :
  receiversSupported f = true -> In s (symbols f) ->
  matched (enter f t (symbols f)) f s = true.
Proof.
  intros Hs Hin. destruct (supported_key f s Hs Hin) as [k Hk].
  apply matched_lookup. unfold lookupSymbol. rewrite Hk.
  rewrite <- (symbolKey_key f s k Hk). by apply enter_has.
Qed.

Lemma specAfter_matched_no_symbols table f parent parent' (specs : list Spec) :
  (∀ s, In s (flat_map (specSymbols parent) specs) -> matched table f s = true) ->
  flat_map (specSymbols parent') (omap (specAfter table f) specs) = [].
Proof.
  induction specs as [|sp rest IH]; csimpl; [done|]. intros H.
  assert (Hrest : flat_map (specSymbols parent') (omap (specAfter table f) rest) = []).
  { apply IH. intros s Hin. apply H, in_app_iff. by right. }
  destruct sp as [l|v|t]; csimpl.
  - done.
  - replace (forallb (nameMatched table f) (Names v)) with true; [done|].
    symmetry. apply forallb_forall. intros n Hn. rewrite <- (matched_value _ _ parent).
    apply H, in_app_iff. left. simpl. by apply in_map.
  - rewrite <- (matched_type _ _ parent), H; [done|]. apply in_app_iff. left. by left.
Qed.

Lemma declAfter_matched_no_symbols table f (decls : list Decl) :
  (∀ s, In s (flat_map declSymbols decls) -> matched table f s = true) ->
  flat_map declSymbols (omap (declAfter table f) decls) = [].
Proof.
  induction decls as [|d rest IH]; csimpl; [done|]. intros H.
  assert (Hrest : flat_map declSymbols (omap (declAfter table f) rest) = []).
  { apply IH. intros s Hin. apply H, in_app_iff. by right. }
  destruct d as [a b|g|node]; csimpl.
  - done.
  - case_bool_decide as Ht; csimpl.
    + pose proof (specAfter_matched_no_symbols table f g
                    (withSpecs g (omap (specAfter table f) (Specs g))) (Specs g)) as Hno.
      destruct (omap (specAfter table f) (Specs g)) as [|s0 specs0] eqn:Eo; [done|].
      csimpl. rewrite bool_decide_eq_true_2 by done. rewrite Hrest, app_nil_r.
      apply Hno. intros s Hin. apply H, in_app_iff. left.
      unfold declSymbols. rewrite bool_decide_eq_true_2 by done. exact Hin.
    + rewrite bool_decide_eq_false_2 by (intros Hn; by apply Hn). exact Hrest.
  - rewrite H; [done|]. apply in_app_iff. left. by left.
Qed.

(** X7: pruning a file with the table collected from that same file
    removes every top-level function, type, variable and constant, and
    appends one placeholder for each of them. *)
Theorem Prune_after_Collect
    (format_Node : Node -> option string) (sf : SymbolFilter.t) (f : File) :
  receiversSupported f = true ->
  (∀ s, In s (symbols f) -> is_Some (format_Node (SymbolFilter.stub s))) ->
  ∃ sf' f' changed,
    SymbolFilter.Collect sf f = Ok (sf', false)
    ∧ SymbolFilter.Prune format_Node sf' f = Ok (f', changed)
    ∧ symbols f' = []
    ∧ length (Comments f') = (length (Comments f) + length (symbols f))%nat.
Proof.
  intros Hs Hfmt. unfold SymbolFilter.Collect. rewrite collectFile_spec by done. simpl.
  set (sf' := SymbolFilter.mk (SymbolFilter.FileSet sf)
                (enter f (SymbolFilter.WillPrune sf) (symbols f))).
  destruct (SymbolFilter_Prune_total format_Node sf' f Hs Hfmt) as (f' & changed & H).
  exists sf', f', changed. split; [done|]. split; [done|].
  assert (Hall : ∀ s, In s (symbols f) -> matched (SymbolFilter.WillPrune sf') f s = true)
    by (intros s Hin; by apply collected_matched).
  apply pruneFile_outcome in H as (_ & (cs & Hc & F) & He & Hne).
  rewrite filter_all in F by (by apply forallb_forall).
  apply Forall2_length in F.
  split; [|by rewrite Hc, length_app, F].
  destruct (tableIsEmpty (SymbolFilter.WillPrune sf')) eqn:E.
  - rewrite (He eq_refl). destruct (symbols f) as [|s rest] eqn:Es; [done|].
    specialize (Hall s (or_introl eq_refl)).
    by rewrite empty_table_unmatched in Hall.
  - rewrite (Hne eq_refl). unfold symbols. simpl.
    by apply declAfter_matched_no_symbols.
Qed.

Lemma Prune_after_Collect_witness :
  ∃ sf' f' changed,
    SymbolFilter.Collect (filterOf []) exampleSource = Ok (sf', false)
    ∧ SymbolFilter.Prune printStub sf' exampleSource = Ok (f', changed)
    ∧ symbols f' = []
    ∧ length (Comments f') = (length (Comments exampleSource)
                              + length (symbols exampleSource))%nat.
Proof.
  exact (Prune_after_Collect printStub (filterOf []) exampleSource eq_refl
           (λ s _, printStub_stub s)).
Defined.

(** *** Pruning twice *)

Lemma blankName_idempotent table f n :
  blankName table f (blankName table f n) = blankName table f n.
Proof.
  unfold blankName. destruct (nameMatched table f n) eqn:E; [|by rewrite E].
  by destruct (nameMatched table f (NewIdent "_")).
Qed.

Lemma blankName_keeps_unmatched table f (names : list Ident) :
  forallb (nameMatched table f) names = false ->
  forallb (nameMatched table f) (map (blankName table f) names) = false.
Proof.
  induction names as [|n rest IH]; simpl; [done|].
  unfold blankName at 1. destruct (nameMatched table f n) eqn:E; simpl.
  - intros H. rewrite (IH H). apply andb_false_r.
  - by rewrite E.
Qed.

Lemma specAfter_stable table f s s' :
  specAfter table f s = Some s' -> specAfter table f s' = Some s'.
Proof.
  destruct s as [l|v|t]; simpl.
  - by intros [= <-].
  - destruct (forallb _ _) eqn:E; [done|]. intros [= <-]. simpl.
    rewrite blankName_keeps_unmatched by done. do 2 f_equal.
    unfold withNames. simpl. f_equal. rewrite map_map.
    apply map_ext. intros n. apply blankName_idempotent.
  - destruct (typeMatched table f t) eqn:E; [done|]. intros [= <-]. simpl. by rewrite E.
Qed.

Lemma specsAfter_stable table f (specs : list Spec) :
  omap (specAfter table f) (omap (specAfter table f) specs)
  = omap (specAfter table f) specs.
Proof.
  induction specs as [|s rest IH]; csimpl; [done|].
  destruct (specAfter table f s) as [s'|] eqn:E; csimpl; [|done].
  by rewrite (specAfter_stable _ _ _ _ E), IH.
Qed.

Lemma declAfter_stable table f d d' :
  declAfter table f d = Some d' -> declAfter table f d' = Some d'.
Proof.
  destruct d as [a b|g|node]; simpl.
  - by intros [= <-].
  - case_bool_decide as Ht.
    + pose proof (specsAfter_stable table f (Specs g)) as Hst.
      destruct (omap (specAfter table f) (Specs g)) as [|s0 specs0] eqn:Eo; [done|].
      intros [= <-]. unfold declAfter.
      change (Tok (withSpecs g (s0 :: specs0))) with (Tok g).
      change (Specs (withSpecs g (s0 :: specs0))) with (s0 :: specs0).
      rewrite bool_decide_eq_true_2 by done. by rewrite Hst.
    + intros [= <-]. simpl. by rewrite bool_decide_eq_false_2 by (intros Hn; by apply Hn).
  - destruct (matched table f (SymFunc node)) eqn:E; [done|].
    intros [= <-]. simpl. by rewrite E.
Qed.

Lemma declsAfter_stable table f (decls : list Decl) :
  omap (declAfter table f) (omap (declAfter table f) decls)
  = omap (declAfter table f) decls.
Proof.
  induction decls as [|d rest IH]; csimpl; [done|].
  destruct (declAfter table f d) as [d'|] eqn:E; csimpl; [|done].
  by rewrite (declAfter_stable _ _ _ _ E), IH.
Qed.

Lemma blankName_unmatched table f n :
  nameMatched table f (NewIdent "_") = false ->
  nameMatched table f (blankName table f n) = false.
Proof.
  intros H. unfold blankName. by destruct (nameMatched table f n) eqn:E.
Qed.

Lemma specAfter_survivors table f parent' (specs : list Spec) s :
  nameMatched table f (NewIdent "_") = false ->
  In s (flat_map (specSymbols parent') (omap (specAfter table f) specs)) ->
  matched table f s = false ∧ panics (key f (symbolNode s)) = false.
Proof.
  intros Hb. induction specs as [|sp rest IH]; csimpl; [done|].
  destruct sp as [l|v|t]; csimpl.
  - done.
  - destruct (forallb _ _); csimpl; [done|].
    rewrite in_app_iff. intros [Hin|Hin]; [|auto].
    apply in_map_iff in Hin as (n' & <- & Hn').
    apply in_map_iff in Hn' as (n & <- & _).
    rewrite matched_value. split; [by apply blankName_unmatched|done].
  - destruct (typeMatched table f t) eqn:E; csimpl; [done|].
    intros [<-|Hin]; [|auto]. by rewrite matched_type.
Qed.

Lemma declAfter_survivors table f (decls : list Decl) s :
  nameMatched table f (NewIdent "_") = false ->
  (∀ s0, In s0 (flat_map declSymbols decls) -> panics (key f (symbolNode s0)) = false) ->
  In s (flat_map declSymbols (omap (declAfter table f) decls)) ->
  matched table f s = false ∧ panics (key f (symbolNode s)) = false.
Proof.
  intros Hb. induction decls as [|d rest IH]; csimpl; [done|]. intros Hk.
  assert (Hrest : In s (flat_map declSymbols (omap (declAfter table f) rest)) ->
                  matched table f s = false ∧ panics (key f (symbolNode s)) = false).
  { apply IH. intros s0 Hin. apply Hk, in_app_iff. by right. }
  destruct d as [a b|g|node]; csimpl.
  - done.
  - case_bool_decide as Ht; csimpl.
    + destruct (omap (specAfter table f) (Specs g)) as [|s0 specs0] eqn:Eo; [done|].
      csimpl. rewrite bool_decide_eq_true_2 by done.
      rewrite in_app_iff. intros [Hin|Hin]; [|auto].
      apply (specAfter_survivors table f (withSpecs g (s0 :: specs0)) (Specs g));
        [done|]. by rewrite Eo.
    + rewrite bool_decide_eq_false_2 by (intros Hn; by apply Hn). exact Hrest.
  - destruct (matched table f (SymFunc node)) eqn:E; csimpl; [done|].
    intros [<-|Hin]; [|auto]. split; [done|]. apply Hk, in_app_iff. left. by left.
Qed.

Lemma pruneFile_Ok_keys phF phV phT table f r s :
  pruneFile phF phV phT table f = Ok r -> tableIsEmpty table = false ->
  In s (symbols f) -> panics (key f (symbolNode s)) = false.
Proof.
  intros H E Hin. destruct (panics (key f (symbolNode s))) eqn:Hp; [|done].
  pose proof (pruneFile_panics phF phV phT table f s E Hin Hp) as Hpanic.
  by rewrite H in Hpanic.
Qed.

Lemma omap_pointwise {A B} (g h : A -> option B) (l : list A) :
  (∀ x, g x = h x) -> omap g l = omap h l.
Proof.
  intros H. induction l as [|x l IH]; csimpl; [done|]. by rewrite H, IH.
Qed.

Lemma withDecls_same f : withDecls f (Decls f) (Comments f) = f.
Proof. by destruct f. Qed.

(** X8: [Prune] is idempotent when the table has no entry for the blank
    identifier: pruning the pruned file again returns it as it is, with
    no further comment, and reports no change. *)
Theorem Prune_idempotent
    (format_Node : Node -> option string) (sf : SymbolFilter.t)
    (f f1 : File) (changed : bool) :
  SymbolFilter.Prune format_Node sf f = Ok (f1, changed) ->
  nameMatched (SymbolFilter.WillPrune sf) f (NewIdent "_") = false ->
  SymbolFilter.Prune format_Node sf f1 = Ok (f1, false).
Proof.
  intros H Hb. set (table := SymbolFilter.WillPrune sf) in *.
  destruct (tableIsEmpty table) eqn:E.
  { unfold SymbolFilter.Prune in *. rewrite pruneFile_empty in H by done.
    injection H as <- <-. by apply pruneFile_empty. }
  pose proof (pruneFile_outcome _ _ _ _ _ _ _ H) as (_ & _ & _ & Hne).
  specialize (Hne E).
  assert (Hsurv : ∀ s, In s (symbols f1) ->
                       matched table f s = false ∧ panics (key f (symbolNode s)) = false).
  { intros s Hin. rewrite Hne in Hin. unfold symbols in Hin. simpl in Hin.
    apply declAfter_survivors in Hin; [done|done|].
    intros s0 Hin0. by apply (pruneFile_Ok_keys _ _ _ _ _ _ s0 H). }
  assert (Hname : File_Name f1 = File_Name f) by (by rewrite Hne).
  assert (Hkey : ∀ n, key f1 n = key f n).
  { intros n. unfold key. by rewrite Hname. }
  assert (Hm : ∀ s, matched table f1 s = matched table f s).
  { intros s. unfold matched, lookupSymbol. by rewrite Hkey. }
  assert (Hnone : existsb (matched table f1) (symbols f1) = false).
  { destruct (existsb _ _) eqn:Ex; [|done].
    apply existsb_exists in Ex as (s & Hin & Hms). rewrite Hm in Hms.
    destruct (Hsurv s Hin). congruence. }
  assert (Hsupp : receiversSupported f1 = true).
  { apply forallb_forall. intros s Hin. rewrite Hkey.
    destruct (Hsurv s Hin) as [_ ->]. done. }
  destruct (pruneFile_untouched
              (λ node o p, SymbolFilter.placeholder format_Node sf
                             (SymbolFilter.funcStub node) o p)
              (λ parent name o p, SymbolFilter.placeholder format_Node sf
                                    (SymbolFilter.valueStub parent name) o p)
              (λ parent node o p, SymbolFilter.placeholder format_Node sf
                                    (SymbolFilter.typeStub parent node) o p)
              table f1 Hsupp Hnone) as (f2 & H2 & Hc2).
  unfold SymbolFilter.Prune. fold table. rewrite H2. do 2 f_equal.
  pose proof (pruneFile_outcome _ _ _ _ _ _ _ H2) as (_ & _ & _ & Hne2).
  rewrite (Hne2 E), Hc2.
  assert (Hd : ∀ d, declAfter table f1 d = declAfter table f d).
  { intros d. unfold declAfter, specAfter, blankName, nameMatched, typeMatched.
    rewrite Hname. destruct d as [a b|g|node]; [done|done|]. by rewrite Hm. }
  rewrite (omap_pointwise _ _ _ Hd).
  assert (Hdecls : omap (declAfter table f) (Decls f1) = Decls f1).
  { rewrite Hne. simpl. apply declsAfter_stable. }
  rewrite Hdecls. apply withDecls_same.
Qed.

Lemma Prune_idempotent_witness :
  SymbolFilter.Prune printStub (filterOf ["x.V1"]) prunedMultiVarFile
  = Ok (prunedMultiVarFile, false).
Proof.
  exact (Prune_idempotent printStub (filterOf ["x.V1"]) multiVarFile
           prunedMultiVarFile true eq_refl eq_refl).
Defined.

(** *** The two implementations *)

Lemma slashes_app a b : slashes (a ++ b) = slashes a ++ slashes b.
Proof. unfold slashes. apply map_app. Qed.

Lemma slashes_of_placeholders {A} (R : A -> CommentGroup -> Prop) (pos : A -> Pos)
    (l : list A) (cs : list CommentGroup) :
  (∀ x c, R x c -> map Slash (CList c) = [pos x]) ->
  Forall2 R l cs -> slashes cs = map (λ x, [pos x]) l.
Proof.
  intros HR. induction 1 as [|x c l cs Hxc _ IH]; simpl; [done|].
  by rewrite (HR x c Hxc), IH.
Qed.

(** X9: with the same table [SymbolFilter.Prune] and [augmenter.Prune]
    prune the same declarations, report the same flag and put their
    placeholder comments at the same positions; only the comment texts
    differ. *)
Theorem implementations_prune_alike
    (format_Node : Node -> option string) (sf : SymbolFilter.t)
    (a : augmenter.t) (fset : token_FileSet) (f f1 f2 : File) (c1 c2 : bool) :
  SymbolFilter.WillPrune sf = augmenter.Replacements a ->
  SymbolFilter.Prune format_Node sf f = Ok (f1, c1) ->
  augmenter.Prune a fset f = Ok (f2, c2) ->
  Decls f1 = Decls f2 ∧ c1 = c2 ∧ slashes (Comments f1) = slashes (Comments f2).
Proof.
  intros Ht H1 H2. unfold SymbolFilter.Prune, augmenter.Prune in *. rewrite <- Ht in H2.
  set (table := SymbolFilter.WillPrune sf) in *.
  apply pruneFile_outcome in H1 as (-> & (cs1 & Hc1 & F1) & He1 & Hne1).
  apply pruneFile_outcome in H2 as (-> & (cs2 & Hc2 & F2) & He2 & Hne2).
  split; [|split; [done|]].
  - destruct (tableIsEmpty table) eqn:E.
    + by rewrite (He1 eq_refl), (He2 eq_refl).
    + by rewrite (Hne1 eq_refl), (Hne2 eq_refl).
  - rewrite Hc1, Hc2, !slashes_app. f_equal.
    transitivity (map (λ s, [origPos s]) (List.filter (matched table f) (symbols f))).
    + eapply slashes_of_placeholders; [|exact F1].
      intros s c (pos & _ & R).
      destruct s; simpl in R; unfold SymbolFilter.placeholder in R;
        destruct (format_Node _); try discriminate; by injection R as <-.
    + symmetry. eapply slashes_of_placeholders; [|exact F2].
      intros s c (pos & _ & R). destruct s as [node|parent name|parent node]; simpl in R.
      * apply bind_Ok in R as (name & _ & [= <-]). done.
      * by injection R as <-.
      * by injection R as <-.
Qed.

Lemma implementations_prune_alike_witness :
  Decls prunedFuncFile = Decls augmentedFuncFile
  ∧ true = true
  ∧ slashes (Comments prunedFuncFile) = slashes (Comments augmentedFuncFile).
Proof.
  exact (implementations_prune_alike printStub (filterOf ["x.T1"; "x.Func"])
           (augmenter.mk (tableOf ["x.T1"; "x.Func"])) exampleFset
           funcFile prunedFuncFile augmentedFuncFile true true
           eq_refl eq_refl eq_refl).
Defined.

(** * Further properties of [nosync] *)

Section NosyncMore.
Variable Unquote : string -> option string.

Lemma redirected_not_sync imports l spec :
  default "" (Unquote nosyncPath) ≠ "sync" ->
  l ∈ imports ->
  importPath Unquote (redirected Unquote imports l spec) ≠ "sync".
Proof.
  intros Hd Hin. unfold redirected. case_bool_decide as Hs.
  - exact Hd.
  - intros Hp. apply Hs. done.
Qed.

(** X10: [nosync] is idempotent: run on its own result it rewrites
    nothing, returns the tree as it is and reports no change. *)
Theorem nosync_idempotent (fset : token_FileSet) (f : File) :
  (∀ l, l ∈ Imports f -> is_Some (ImportObjs f !! l)) ->
  default "" (Unquote nosyncPath) ≠ "sync" ->
  ∃ f1 changed,
    nosync Unquote fset f = Ok (f1, changed)
    ∧ nosync Unquote fset f1 = Ok (f1, false).
Proof.
  intros Hall Hd.
  destruct (nosyncLoop_spec Unquote (Imports f) (ImportObjs f) false Hall)
    as (objs1 & Hrun1 & Hlook1).
  unfold nosync at 1. rewrite Hrun1. simpl. eexists _, _. split; [reflexivity|].
  assert (Hall1 : ∀ l, l ∈ Imports f -> is_Some (objs1 !! l)).
  { intros l Hl. rewrite Hlook1. destruct (Hall l Hl) as [spec ->]. simpl. eauto. }
  destruct (nosyncLoop_spec Unquote (Imports f) objs1 false Hall1)
    as (objs2 & Hrun2 & Hlook2).
  unfold nosync. simpl. rewrite Hrun2.
  assert (Hnone : existsb (syncAt Unquote objs1) (Imports f) = false).
  { destruct (existsb (syncAt Unquote objs1) (Imports f)) eqn:Ex; [|reflexivity].
    exfalso.
    apply existsb_exists in Ex as (l & Hin%list_elem_of_In & Hs).
    unfold syncAt in Hs. rewrite Hlook1 in Hs.
    destruct (ImportObjs f !! l) as [spec|]; simpl in Hs; [|done].
    apply bool_decide_eq_true in Hs. by apply redirected_not_sync in Hs. }
  rewrite Hnone. simpl. do 3 f_equal. apply map_eq. intros l. rewrite Hlook2.
  destruct (objs1 !! l) as [spec1|] eqn:E1; simpl; [|done]. f_equal.
  unfold redirected. case_bool_decide as Hs; [|done]. destruct Hs as [Hin Hp].
  exfalso. rewrite Hlook1 in E1.
  destruct (ImportObjs f !! l) as [spec|]; simpl in E1; [|done].
  injection E1 as <-. by apply redirected_not_sync in Hp.
Qed.
End NosyncMore.

Lemma nosync_idempotent_witness :
  ∃ f1 changed,
    nosync unquotePlain exampleFset importsFile = Ok (f1, changed)
    ∧ nosync unquotePlain exampleFset f1 = Ok (f1, false).
Proof.
  apply nosync_idempotent.
  - intros l Hl. vm_compute in Hl.
    repeat (apply elem_of_cons in Hl as [->|Hl]; [vm_compute; eauto|]).
    by apply elem_of_nil in Hl.
  - vm_compute. discriminate.
Defined.

(** *** [Prune] and [nosync] act on different parts of the tree *)

Section PackageName.
Variable phF : FuncDecl -> Pos -> Pos -> result CommentGroup.
Variable phV : GenDecl -> Ident -> Pos -> Pos -> result CommentGroup.
Variable phT : GenDecl -> TypeSpec -> Pos -> Pos -> result CommentGroup.
Variable table : gmap string Pos.
Variables f1 f2 : File.
Hypothesis same_name : File_Name f1 = File_Name f2.

Lemma key_package n : key f1 n = key f2 n.
Proof. unfold key. by rewrite same_name. Qed.

Lemma pruneNames_package parent names r w :
  pruneNames phV table f1 parent names r w = pruneNames phV table f2 parent names r w.
Proof.
  revert r w. induction names as [|n rest IH]; intros r w; simpl; [done|].
  rewrite same_name. destruct (table !! _); simpl.
  - destruct (phV parent n (GenDecl_Pos parent - 1) p); simpl; [|done]. by rewrite IH.
  - by rewrite IH.
Qed.

Lemma visitSpec_package parent s w :
  visitSpec phV phT table f1 parent s w = visitSpec phV phT table f2 parent s w.
Proof.
  destruct s as [l|v|t]; simpl; [done| |by rewrite same_name].
  by rewrite pruneNames_package.
Qed.

Lemma visitSpecs_package parent specs w :
  visitSpecs phV phT table f1 parent specs w = visitSpecs phV phT table f2 parent specs w.
Proof.
  revert w. induction specs as [|s rest IH]; intros w; simpl; [done|].
  rewrite visitSpec_package.
  destruct (visitSpec phV phT table f2 parent s w) as [[s' w1]|]; simpl; [|done].
  by rewrite IH.
Qed.

Lemma visitDecl_package d w :
  visitDecl phF phV phT table f1 d w = visitDecl phF phV phT table f2 d w.
Proof.
  destruct d as [a b|g|node]; simpl; [done| |by rewrite same_name].
  by rewrite visitSpecs_package.
Qed.

Lemma visitDecls_package decls w :
  visitDecls phF phV phT table f1 decls w = visitDecls phF phV phT table f2 decls w.
Proof.
  revert w. induction decls as [|d rest IH]; intros w; simpl; [done|].
  rewrite visitDecl_package.
  destruct (visitDecl phF phV phT table f2 d w) as [[d' w1]|]; simpl; [|done].
  by rewrite IH.
Qed.
End PackageName.

(** X11: [Prune] and [nosync] commute: whichever runs first, the other
    one returns the same flag as on the original file, and both orders end
    in the same tree. *)
Theorem Prune_nosync_commute
    (Unquote : string -> option string) (format_Node : Node -> option string)
    (sf : SymbolFilter.t) (fset : token_FileSet) (f f1 f2 : File) (c1 c2 : bool) :
  nosync Unquote fset f = Ok (f1, c1) ->
  SymbolFilter.Prune format_Node sf f = Ok (f2, c2) ->
  ∃ f3, SymbolFilter.Prune format_Node sf f1 = Ok (f3, c2)
        ∧ nosync Unquote fset f2 = Ok (f3, c1).
Proof.
  unfold nosync, SymbolFilter.Prune, pruneFile. intros Hn Hp.
  destruct (nosyncLoop Unquote (Imports f) (ImportObjs f) false) as [[objs1 m]|] eqn:El;
    [|discriminate].
  injection Hn as <- <-. simpl.
  destruct (tableIsEmpty (SymbolFilter.WillPrune sf)).
  - injection Hp as <- <-. eexists. split; [reflexivity|]. by rewrite El.
  - apply bind_Ok in Hp as ([decls w] & Hd & [= <- <-]).
    erewrite (visitDecls_package _ _ _ _ _ f) by reflexivity. rewrite Hd. simpl.
    eexists. split; [reflexivity|]. by rewrite El.
Qed.

Lemma Prune_nosync_commute_witness :
  ∃ f3, SymbolFilter.Prune printStub (filterOf ["x.Func"]) redirectedImportsFile
        = Ok (f3, true)
        ∧ nosync unquotePlain exampleFset prunedImportsFile = Ok (f3, true).
Proof.
  apply (Prune_nosync_commute unquotePlain printStub (filterOf ["x.Func"]) exampleFset
           importsFile redirectedImportsFile prunedImportsFile true true).
  - vm_compute. reflexivity.
  - reflexivity.
Defined.

(** *** Entries for symbols the file does not declare *)

Section TableAgreement.
Variable phF : FuncDecl -> Pos -> Pos -> result CommentGroup.
Variable phV : GenDecl -> Ident -> Pos -> Pos -> result CommentGroup.
Variable phT : GenDecl -> TypeSpec -> Pos -> Pos -> result CommentGroup.
Variables t1 t2 : gmap string Pos.
Variable f : File.

#[local] Abbreviation agree :=
  (λ syms : list symbol, ∀ s, In s syms -> lookupSymbol t1 f s = lookupSymbol t2 f s).

Lemma pruneNames_agree parent names r w :
  agree (map (SymValue parent) names) ->
  pruneNames phV t1 f parent names r w = pruneNames phV t2 f parent names r w.
Proof.
  revert r w. induction names as [|n rest IH]; intros r w Ha; simpl; [done|].
  pose proof (Ha (SymValue parent n) (or_introl eq_refl)) as Hn.
  unfold lookupSymbol in Hn. simpl in Hn. rewrite Hn.
  assert (Hrest : agree (map (SymValue parent) rest))
    by (intros s Hin; apply Ha; by right).
  destruct (t2 !! _); simpl.
  - destruct (phV parent n (GenDecl_Pos parent - 1) p); simpl; [|done]. by rewrite IH.
  - by rewrite IH.
Qed.

Lemma visitSpec_agree parent s w :
  agree (specSymbols parent s) ->
  visitSpec phV phT t1 f parent s w = visitSpec phV phT t2 f parent s w.
Proof.
  destruct s as [l|v|t]; simpl; intros Ha; [done| |].
  - by rewrite pruneNames_agree.
  - pose proof (Ha (SymType parent t) (or_introl eq_refl)) as Ht.
    unfold lookupSymbol in Ht. simpl in Ht. by rewrite Ht.
Qed.

Lemma visitSpecs_agree parent specs w :
  agree (flat_map (specSymbols parent) specs) ->
  visitSpecs phV phT t1 f parent specs w = visitSpecs phV phT t2 f parent specs w.
Proof.
  revert w. induction specs as [|s rest IH]; intros w Ha; simpl; [done|].
  rewrite visitSpec_agree by (intros s0 Hin; apply Ha, in_app_iff; by left).
  destruct (visitSpec phV phT t2 f parent s w) as [[s' w1]|]; simpl; [|done].
  by rewrite IH by (intros s0 Hin; apply Ha, in_app_iff; by right).
Qed.

Lemma visitDecl_agree d w :
  agree (declSymbols d) ->
  visitDecl phF phV phT t1 f d w = visitDecl phF phV phT t2 f d w.
Proof.
  destruct d as [a b|g|node]; simpl; intros Ha; [done| |].
  - case_bool_decide; [|done]. by rewrite visitSpecs_agree.
  - pose proof (Ha (SymFunc node) (or_introl eq_refl)) as Hn.
    unfold lookupSymbol in Hn. simpl in Hn.
    destruct (funcName node); simpl in *; [|done]. by rewrite Hn.
Qed.

Lemma visitDecls_agree decls w :
  agree (flat_map declSymbols decls) ->
  visitDecls phF phV phT t1 f decls w = visitDecls phF phV phT t2 f decls w.
Proof.
  revert w. induction decls as [|d rest IH]; intros w Ha; simpl; [done|].
  rewrite visitDecl_agree by (intros s0 Hin; apply Ha, in_app_iff; by left).
  destruct (visitDecl phF phV phT t2 f d w) as [[d' w1]|]; simpl; [|done].
  by rewrite IH by (intros s0 Hin; apply Ha, in_app_iff; by right).
Qed.
End TableAgreement.

(** X22: table entries for symbols the file does not declare are
    ignored: two tables, neither of them empty, that agree on the keys of
    the file's top-level symbols make [Prune] return the same tree and
    flag, or panic alike. *)
Theorem Prune_ignores_foreign_entries
    (format_Node : Node -> option string) (fset : option token_FileSet)
    (t1 t2 : gmap string Pos) (f : File) :
  t1 ≠ ∅ -> t2 ≠ ∅ ->
  (∀ s, In s (symbols f) -> lookupSymbol t1 f s = lookupSymbol t2 f s) ->
  SymbolFilter.Prune format_Node (SymbolFilter.mk fset t1) f
  = SymbolFilter.Prune format_Node (SymbolFilter.mk fset t2) f.
Proof.
  intros H1 H2 Ha. unfold SymbolFilter.Prune, pruneFile, tableIsEmpty. simpl.
  rewrite !bool_decide_eq_false_2 by (by intros ?%map_size_empty_inv).
  unfold SymbolFilter.placeholder, SymbolFilter.position. simpl.
  by rewrite (visitDecls_agree _ _ _ t1 t2 f (Decls f) _ Ha).
Qed.

Lemma Prune_ignores_foreign_entries_witness :
  SymbolFilter.Prune printStub (filterOf ["x.V1"; "y.Other"]) multiVarFile
  = SymbolFilter.Prune printStub (filterOf ["x.V1"]) multiVarFile.
Proof.
  apply (Prune_ignores_foreign_entries printStub (Some exampleFset)
           (tableOf ["x.V1"; "y.Other"]) (tableOf ["x.V1"]) multiVarFile).
  - intros H. by apply (f_equal (λ m, m !! "x.V1")) in H.
  - intros H. by apply (f_equal (λ m, m !! "x.V1")) in H.
  - intros s [<-|[<-|[<-|[]]]]; reflexivity.
Defined.

(** * Further properties of the source pipeline *)

Section PipelineFacts.
Context `{Platform}.
Variable ParseFile : string -> string -> option File.
Variable formatFile : File -> option string.
Variable Join : string -> string -> string.
Variable Base : string -> string.

Lemma writeFile_frame d path content p :
  p ≠ path -> entries (writeFile d path content) !! p = entries d !! p.
Proof. intros Hne. unfold writeFile. simpl. by rewrite lookup_insert_ne. Qed.





End PipelineFacts.


Section PipelineOutcomes.
Context `{Platform}.
Variable ParseFile : string -> string -> option File.
Variable formatFile : File -> option string.
Variable Join : string -> string -> string.
Variable Base : string -> string.

(** X13: when the transformer reports a change, [processSource] returns no
    error exactly when the destination path leads, through its links, to a
    place where there is no file and one can be created, the tree can be
    printed, and the file takes the bytes or else the text fits the write
    buffer, the error of the last flush being dropped.  What is then read
    at the destination is the printed tree the transformer returned, or
    nothing if the file took no byte. *)
Theorem processSource_changed_outcome
    (fset : token_FileSet) (d : disk) (loadFS : FileSystem)
    (loadPath writePath : string) (transform : astTransformer) (f f' : File) :
  loadAST ParseFile Join Base d loadFS loadPath writePath = inl f ->
  transform fset f = Ok (f', true) ->
  ∃ err d',
    processSource ParseFile formatFile Join Base fset d loadFS loadPath writePath
      transform
    = Ok (err, d')
    ∧ (err = None
       <-> ∃ file text,
             follow maxLinks d writePath = Some file
             ∧ entries d !! file = None
             ∧ (file ∉ denied d)
             ∧ formatFile f' = Some text
             ∧ (file ∈ unwritable d -> Z.of_nat (String.length text) <= ioBufSize))
    ∧ (err = None ->
       ∃ file text,
         follow maxLinks d writePath = Some file
         ∧ formatFile f' = Some text
         ∧ readFile d' writePath
           = Some (if bool_decide (file ∈ unwritable d) then "" else text)).
Proof.
  intros Hl Ht. unfold processSource. rewrite Hl, Ht. simpl.
  unfold writeAST, os_Stat, os_Create.
  destruct (follow maxLinks d writePath) as [file|] eqn:Hf; simpl.
  2:{ eexists _, _. split; [reflexivity|]. split; [|done].
      split; [done|]. by intros (? & ? & ? & _). }
  destruct (entries d !! file) as [e|] eqn:Ee; simpl.
  { eexists _, _. split; [reflexivity|]. split; [|done].
    split; [done|]. intros (? & ? & [= <-] & ? & _). congruence. }
  case_bool_decide as Hd.
  { eexists _, _. split; [reflexivity|]. split; [|done].
    split; [done|]. intros (? & ? & [= <-] & _ & ? & _). done. }
  destruct (formatFile f') as [text|] eqn:Ef.
  2:{ eexists _, _. split; [reflexivity|]. split; [|done].
      split; [done|]. intros (? & ? & _ & _ & _ & ? & _). done. }
  simpl. case_bool_decide as Hu.
  - case_bool_decide as Hlen.
    + eexists _, _. split; [reflexivity|]. split; [|done].
      split; [done|]. intros (? & ? & [= <-] & _ & _ & [= <-] & Hfit).
      specialize (Hfit Hu). lia.
    + eexists _, _. split; [reflexivity|]. split.
      * split; [|done]. intros _. exists file, text. repeat split; try done.
        intros _. lia.
      * intros _. exists file, text. split; [done|]. split; [done|].
        rewrite bool_decide_eq_true_2 by done. by apply readFile_written.
  - eexists _, _. split; [reflexivity|]. split.
    + split; [|done]. intros _. exists file, text. repeat split; done.
    + intros _. exists file, text. split; [done|]. split; [done|].
      rewrite bool_decide_eq_false_2 by done.
      replace (writeFile (writeFile d file "") file text) with (writeFile d file text)
        by (unfold writeFile; simpl; by rewrite insert_insert_eq).
      by apply readFile_written.
Qed.

(** X14: [processSource] returns an error and leaves the disk as it is
    when the transformer reported a change and [os.Stat] does not report
    that the destination is missing, and when the file is unchanged, comes
    from the real file system and there is anything at the destination
    path, be it a link that leads nowhere. *)
Theorem processSource_refuses_existing
    (fset : token_FileSet) (d : disk) (loadFS : FileSystem)
    (loadPath writePath : string) (transform : astTransformer)
    (f f' : File) (changed : bool) :
  loadAST ParseFile Join Base d loadFS loadPath writePath = inl f ->
  transform fset f = Ok (f', changed) ->
  (changed = true ∧ os_IsNotExist (os_Stat d writePath) = false)
  ∨ (changed = false ∧ (∃ root, loadFS = Dir root)
     ∧ is_Some (entries d !! writePath)) ->
  ∃ err,
    processSource ParseFile formatFile Join Base fset d loadFS loadPath writePath
      transform
    = Ok (Some err, d).
Proof.
  intros Hl Ht Hcase. unfold processSource. rewrite Hl, Ht.
  destruct Hcase as [[-> Hs]|(-> & [root ->] & [e He])]; simpl.
  - rewrite (writeAST_refuses formatFile d writePath f' Hs). eauto.
  - rewrite (copyUnmodified_Dir_existing Join d root loadPath writePath e He). eauto.
Qed.

(** X15: when printing the changed tree fails, [processSource] reports
    the error but the destination has already been created; a second run
    on the resulting disk is refused because the destination exists. *)
Theorem processSource_failed_print_leaves_file
    (fset : token_FileSet) (d : disk) (loadFS : FileSystem)
    (loadPath writePath : string) (transform : astTransformer) (f f' : File) :
  loadAST ParseFile Join Base d loadFS loadPath writePath = inl f ->
  transform fset f = Ok (f', true) ->
  entries d !! writePath = None ->
  writePath ∉ denied d ->
  formatFile f' = None ->
  ∃ d',
    processSource ParseFile formatFile Join Base fset d loadFS loadPath writePath
      transform
    = Ok (Some (Wrapped "failed to write" FormatError), d')
    ∧ is_Some (entries d' !! writePath)
    ∧ ∀ source, writeAST formatFile d' writePath source
                = (Some (AlreadyExists writePath), d').
Proof.
  intros Hl Ht He Hd Hf. unfold processSource. rewrite Hl, Ht. simpl.
  unfold writeAST at 1, os_Stat, os_Create.
  rewrite follow_not_link by (intros text; by rewrite He). rewrite He. simpl.
  rewrite bool_decide_eq_false_2 by done. rewrite Hf.
  eexists. split; [reflexivity|].
  assert (Hnew : entries (writeFile d writePath "") !! writePath = Some (Regular "")).
  { unfold writeFile. simpl. by rewrite lookup_insert_eq. }
  split; [by rewrite Hnew|].
  intros source. by apply writeAST_existing with "".
Qed.
End PipelineOutcomes.

Lemma processSource_changed_outcome_witness :
  ∃ err d',
    processSource (λ _ _, Some funcFile) (λ _, Some "package x") joinPath id
      exampleFset danglingDisk memoryFS "a.go" "out/a.go"
      (λ _, SymbolFilter.Prune printStub (filterOf ["x.Func"]))
    = Ok (err, d')
    ∧ (err = None
       <-> ∃ file text,
             follow maxLinks danglingDisk "out/a.go" = Some file
             ∧ entries danglingDisk !! file = None
             ∧ (file ∉ denied danglingDisk)
             ∧ Some "package x" = Some text
             ∧ (file ∈ unwritable danglingDisk ->
                Z.of_nat (String.length text) <= ioBufSize))
    ∧ (err = None ->
       ∃ file text,
         follow maxLinks danglingDisk "out/a.go" = Some file
         ∧ Some "package x" = Some text
         ∧ readFile d' "out/a.go"
           = Some (if bool_decide (file ∈ unwritable danglingDisk) then "" else text)).
Proof.
  eapply (processSource_changed_outcome (λ _ _, Some funcFile) (λ _, Some "package x")
            joinPath id exampleFset danglingDisk memoryFS "a.go" "out/a.go"
            (λ _, SymbolFilter.Prune printStub (filterOf ["x.Func"])) funcFile).
  - reflexivity.
  - reflexivity.
Defined.

Lemma processSource_refuses_existing_witness :
  ∃ err,
    processSource (λ _ _, Some funcFile) (λ _, Some "package x") joinPath id
      exampleFset occupiedDisk memoryFS "a.go" "out/a.go"
      (λ _, SymbolFilter.Prune printStub (filterOf ["x.Func"]))
    = Ok (Some err, occupiedDisk).
Proof.
  eapply (processSource_refuses_existing (λ _ _, Some funcFile) (λ _, Some "package x")
            joinPath id exampleFset occupiedDisk memoryFS "a.go" "out/a.go"
            (λ _, SymbolFilter.Prune printStub (filterOf ["x.Func"])) funcFile _ true).
  - reflexivity.
  - reflexivity.
  - left. split; reflexivity.
Defined.

Lemma processSource_failed_print_leaves_file_witness :
  ∃ d',
    processSource (λ _ _, Some funcFile) (λ _, None) joinPath id
      exampleFset (mkDisk ∅ ∅ ∅) memoryFS "a.go" "out/a.go"
      (λ _, SymbolFilter.Prune printStub (filterOf ["x.Func"]))
    = Ok (Some (Wrapped "failed to write" FormatError), d')
    ∧ is_Some (entries d' !! "out/a.go")
    ∧ ∀ source, writeAST (λ _, None) d' "out/a.go" source
                = (Some (AlreadyExists "out/a.go"), d').
Proof.
  eapply (processSource_failed_print_leaves_file (λ _ _, Some funcFile) (λ _, None)
            joinPath id exampleFset (mkDisk ∅ ∅ ∅) memoryFS "a.go" "out/a.go"
            (λ _, SymbolFilter.Prune printStub (filterOf ["x.Func"])) funcFile).
  - reflexivity.
  - reflexivity.
  - reflexivity.
  - apply not_elem_of_empty.
  - reflexivity.
Defined.

(** * Signatures *)

Module typesutil_facts.
Import typesutil.

Lemma At_lookup (t : list Var) (i : nat) v :
  t !! i = Some v -> At t (Z.of_nat i) = Return v.
Proof.
  intros Hi. unfold At, Len. pose proof (lookup_lt_Some _ _ _ Hi) as Hlt.
  destruct t as [|v0 t0]; [done|].
  replace ((0 <=? Z.of_nat i) && (Z.of_nat i <? Z.of_nat (length (v0 :: t0))))
    with true
    by (symmetry; apply andb_true_iff; split; [apply Z.leb_le|apply Z.ltb_lt]; lia).
  by rewrite Nat2Z.id, Hi.
Qed.

Lemma At_outside (t : list Var) (i : Z) :
  t ≠ [] -> i < 0 ∨ Len t <= i -> At t i = Abort IndexOutOfRange.
Proof.
  intros Ht Hi. unfold At. destruct t as [|v0 t0]; [done|].
  replace ((0 <=? i) && (i <? Len (v0 :: t0))) with false; [done|].
  symmetry. apply andb_false_iff.
  destruct Hi; [left; apply Z.leb_gt|right; apply Z.ltb_ge]; lia.
Qed.

(** X16: on a variadic signature whose last parameter is a slice [Param]
    answers for every argument position from 0 on: the type of the
    parameter for a required position, and beyond them the slice type when
    the call uses an ellipsis and the element type otherwise. *)
Theorem Param_variadic (st : Signature) (required : list Var) (last : Var)
    (elem : GoType) (i : nat) (ellipsis : bool) :
  Sig_Variadic st = true ->
  Sig_Params st = required ++ [last] ->
  Var_Type last = Slice elem ->
  Param st (Z.of_nat i) ellipsis
  = Return (Some (match required !! i with
                  | Some v => Var_Type v
                  | None => if ellipsis then Slice elem else elem
                  end)).
Proof.
  intros Hv Hp Hl. unfold Param, RequiredParams, VariadicType. rewrite Hv, Hp. simpl.
  unfold Len. rewrite length_app. simpl.
  replace (Z.of_nat (length required + 1) - 1) with (Z.of_nat (length required)) by lia.
  destruct (required !! i) as [v|] eqn:E.
  - pose proof (lookup_lt_Some _ _ _ E) as Hlt.
    replace (Z.of_nat i <? Z.of_nat (length required)) with true
      by (symmetry; apply Z.ltb_lt; lia).
    rewrite (At_lookup _ i v); [done|]. by apply lookup_app_l_Some.
  - apply lookup_ge_None in E.
    replace (Z.of_nat i <? Z.of_nat (length required)) with false
      by (symmetry; apply Z.ltb_ge; lia).
    rewrite (At_lookup _ (length required) last).
    + simpl. rewrite Hl. by destruct ellipsis.
    + rewrite lookup_app_r by done. by rewrite Nat.sub_diag.
Qed.

Lemma Param_variadic_witness :
  Param variadicSig 0 false = Return (Some (Basic "int"))
  ∧ Param variadicSig 5 false = Return (Some (Basic "string"))
  ∧ Param variadicSig 1 true = Return (Some (Slice (Basic "string"))).
Proof.
  split; [|split].
  - exact (Param_variadic variadicSig [mkVar "a" (Basic "int")]
             (mkVar "rest" (Slice (Basic "string"))) (Basic "string") 0 false
             eq_refl eq_refl eq_refl).
  - exact (Param_variadic variadicSig [mkVar "a" (Basic "int")]
             (mkVar "rest" (Slice (Basic "string"))) (Basic "string") 5 false
             eq_refl eq_refl eq_refl).
  - exact (Param_variadic variadicSig [mkVar "a" (Basic "int")]
             (mkVar "rest" (Slice (Basic "string"))) (Basic "string") 1 true
             eq_refl eq_refl eq_refl).
Defined.

(** X17: on a signature that is not variadic [Param] returns the type of
    the parameter at a position inside the parameter list and panics at
    every other position, with or without ellipsis: beyond the last
    parameter with its own message, and at a negative position with the
    run-time error of [Tuple.At], an index out of range when the signature
    has parameters and a nil dereference when it has none. *)
Theorem Param_non_variadic (st : Signature) (i : Z) (ellipsis : bool) :
  Sig_Variadic st = false ->
  (0 <= i < Len (Sig_Params st) ->
     ∃ v, Sig_Params st !! Z.to_nat i = Some v
          ∧ Param st i ellipsis = Return (Some (Var_Type v)))
  ∧ (i < 0 ->
     Param st i ellipsis
     = Abort (match Sig_Params st with
              | [] => NilDereference
              | _ => IndexOutOfRange
              end))
  ∧ (Len (Sig_Params st) <= i -> Param st i ellipsis = Abort (NonVariadic i)).
Proof.
  intros Hv. unfold Param, RequiredParams. rewrite Hv. simpl. repeat split.
  - intros [H0 H1].
    replace (i <? Len (Sig_Params st)) with true by (symmetry; apply Z.ltb_lt; lia).
    destruct (Sig_Params st !! Z.to_nat i) as [v|] eqn:E.
    + exists v. split; [done|].
      rewrite <- (Z2Nat.id i) at 1 by lia. by rewrite (At_lookup _ _ v).
    + apply lookup_ge_None in E. unfold Len in H1. lia.
  - intros Hi. unfold Len.
    replace (i <? Z.of_nat (length (Sig_Params st))) with true
      by (symmetry; apply Z.ltb_lt; lia).
    destruct (Sig_Params st) as [|v0 t0] eqn:Ep; [done|].
    rewrite At_outside; [done|done|]. by left.
  - intros Hi.
    by replace (i <? Len (Sig_Params st)) with false by (symmetry; apply Z.ltb_ge; lia).
Qed.

Lemma Param_non_variadic_witness :
  Param plainSig 2 false = Abort (NonVariadic 2)
  ∧ Param plainSig (-1) false = Abort IndexOutOfRange
  ∧ Param (mkSignature None [] [] false [] []) (-1) false = Abort NilDereference.
Proof.
  split; [|split].
  - apply (Param_non_variadic plainSig 2 false eq_refl). unfold Len. simpl. lia.
  - apply (Param_non_variadic plainSig (-1) false eq_refl). lia.
  - apply (Param_non_variadic (mkSignature None [] [] false [] []) (-1) false eq_refl).
    lia.
Defined.

(** X18: [RecvTypeName] does not depend on whether the method is declared
    on a type or on a pointer to it: a receiver of type [*T] gives what a
    receiver of type [T] gives, the name of [T] when [T] is a named type
    and a panic otherwise.  Only one pointer is unwrapped. *)
Theorem RecvTypeName_pointer (st1 st2 : Signature) (r1 r2 : Var) :
  Sig_Recv st1 = Some r1 ->
  Sig_Recv st2 = Some r2 ->
  Var_Type r2 = Pointer (Var_Type r1) ->
  (∀ elem, Var_Type r1 ≠ Pointer elem) ->
  RecvTypeName st2 = RecvTypeName st1
  ∧ RecvTypeName st1 = match Var_Type r1 with
                       | Named obj => Return obj
                       | _ => Abort NotNamed
                       end.
Proof.
  intros H1 H2 Hp Hn. unfold RecvTypeName, RecvType. rewrite H1, H2, Hp.
  destruct (Var_Type r1) as [obj|elem|elem|name|descr]; try done.
  by destruct (Hn elem).
Qed.

Lemma RecvTypeName_pointer_witness :
  RecvTypeName plainSig
  = RecvTypeName (mkSignature (Some (mkVar "t" (Named "T"))) [] [] false [] []).
Proof.
  refine (proj1 (RecvTypeName_pointer
                   (mkSignature (Some (mkVar "t" (Named "T"))) [] [] false [] [])
                   plainSig (mkVar "t" (Named "T")) (mkVar "t" (Pointer (Named "T")))
                   eq_refl eq_refl eq_refl _)).
  intros elem. discriminate.
Defined.

(** X19: [HasNamedResults] never panics: it reads the first result only
    when there is one, and is true exactly when that result has a name. *)
Theorem HasNamedResults_total (st : Signature) :
  HasNamedResults st
  = Return (match Sig_Results st with
            | [] => false
            | v :: _ => negb (bool_decide (Var_Name v = ""))
            end).
Proof.
  unfold HasNamedResults, HasResults, Len.
  destruct (Sig_Results st) as [|v rest]; [done|].
  replace (0 <? Z.of_nat (length (v :: rest))) with true
    by (symmetry; apply Z.ltb_lt; simpl; lia).
  change 0 with (Z.of_nat 0%nat) at 1. by rewrite (At_lookup (v :: rest) 0 v).
Qed.
End typesutil_facts.

(** * Package source times *)

Module build_facts.
Import build.

Section ModTimeFacts.
Variables (buildTime now : Z) (osStat : string -> option Z).
Variable Join : string -> string -> string.

Lemma latest_all statFn dir sources t :
  (∀ f, In f sources -> is_Some (statFn (Join dir f))) ->
  let r := latest now Join statFn dir sources t in
  t <= r
  ∧ (∀ f m, In f sources -> statFn (Join dir f) = Some m -> m <= r)
  ∧ (r = t ∨ ∃ f, In f sources ∧ statFn (Join dir f) = Some r).
Proof.
  revert t. induction sources as [|f rest IH]; intros t Hall; simpl.
  - split; [lia|]. split; [done|]. by left.
  - destruct (Hall f (or_introl eq_refl)) as [m Hm]. rewrite Hm.
    destruct (IH (if t <? m then m else t)) as (Hle & Hmax & Hor).
    { intros f' Hin. apply Hall. by right. }
    assert (Hcmp : t <= (if t <? m then m else t) ∧ m <= (if t <? m then m else t)).
    { destruct (t <? m) eqn:E; [apply Z.ltb_lt in E|apply Z.ltb_ge in E]; lia. }
    split; [lia|]. split.
    + intros f' m' [<-|Hin] Hf'; [|by eapply Hmax].
      rewrite Hm in Hf'. injection Hf' as <-. lia.
    + destruct Hor as [Hr|(f' & Hin & Hf')].
      * destruct (t <? m) eqn:E; [|by left].
        right. exists f. split; [by left|]. by rewrite Hr.
      * right. exists f'. split; [by right|done].
Qed.

(** X20: when every source file of the package can be examined,
    [pkgModTime] is the latest of the compiler's build time and the
    modification times of the sources: it is no earlier than any of them
    and is one of them. *)
Theorem pkgModTime_latest dir sources statFn :
  let stat := match statFn with None => osStat | Some fn => fn end in
  (∀ f, In f sources -> is_Some (stat (Join dir f))) ->
  let r := pkgModTime buildTime now osStat Join dir sources statFn in
  buildTime <= r
  ∧ (∀ f m, In f sources -> stat (Join dir f) = Some m -> m <= r)
  ∧ (r = buildTime ∨ ∃ f, In f sources ∧ stat (Join dir f) = Some r).
Proof. intros stat Hall. by apply latest_all. Qed.

Lemma latest_failure statFn dir sources t f :
  In f sources -> statFn (Join dir f) = None ->
  latest now Join statFn dir sources t = now.
Proof.
  revert t. induction sources as [|f0 rest IH]; intros t Hin Hf; simpl; [done|].
  destruct (statFn (Join dir f0)) as [m|] eqn:E; [|done].
  destruct Hin as [->|Hin]; [congruence|]. by apply IH.
Qed.

(** X21: when some source file of the package cannot be examined,
    [pkgModTime] is the current time, whatever the other files say. *)
Theorem pkgModTime_failure dir sources statFn f :
  let stat := match statFn with None => osStat | Some fn => fn end in
  In f sources -> stat (Join dir f) = None ->
  pkgModTime buildTime now osStat Join dir sources statFn = now.
Proof. intros stat Hin Hf. by apply latest_failure with f. Qed.
End ModTimeFacts.

Lemma pkgModTime_latest_witness :
  pkgModTime 50 100 sampleStat joinPath "pkg" ["a.go"; "b.go"] None = 70.
Proof.
  destruct (pkgModTime_latest 50 100 sampleStat joinPath "pkg" ["a.go"; "b.go"] None)
    as (_ & Hmax & Hor).
  - intros f [<-|[<-|[]]]; vm_compute; eauto.
  - reflexivity.
Defined.

Lemma pkgModTime_failure_witness :
  pkgModTime 50 100 sampleStat joinPath "pkg" ["a.go"; "c.go"; "b.go"] None = 100.
Proof.
  apply (pkgModTime_failure 50 100 sampleStat joinPath "pkg" _ None "c.go").
  - right. by left.
  - reflexivity.
Defined.
End build_facts.
